(** * Graph construction for connectome kNN graphs

    A shallow embedding of [src/features/graph_construction.py]
    ([make_undirected], [knn_graph], [make_group_graph],
    [knn_graph_quantile]) together with the properties its specification
    states about it.

    Conventions of the embedding.
    - A 2-D numpy array is a record holding its [shape] and its rows.
      Entries are exact rationals [Q]: the development is about the
      arithmetic of the algorithms, rounding of binary floating point is
      not modelled.  Numeric equality of entries is [Qeq] ([==]).
    - [raise ValueError(msg)] is the [Raise] outcome carrying the
      exception; a returned value is [Return].
    - numpy, networkx and torch_geometric routines are modelled by their
      documented behaviour; every such definition says so. *)

From Stdlib Require Import List Arith ZArith QArith Qabs Qround Lia Bool.
From Stdlib Require Import Permutation Sorted Morphisms.
From Stdlib Require String.
Import String.StringSyntax.
Import ListNotations.

Delimit Scope string_scope with string.
Local Open Scope Q_scope.

(** ** Exceptions and outcomes *)

Inductive exn : Type :=
| ValueError (msg : String.string)
| IndexError (msg : String.string).

Inductive result (A : Type) : Type :=
| Return (a : A)
| Raise (e : exn).

Arguments Return {A} a.
Arguments Raise {A} e.

Definition bind {A B : Type} (r : result A) (f : A -> result B) : result B :=
  match r with
  | Return a => f a
  | Raise e => Raise e
  end.

(** The three messages the module raises with.  The specification calls
    the first and third a ShapeError and the second a RangeError. *)
Definition ShapeError : exn := ValueError "Adjacency matrix must be square."%string.
Definition RangeError : exn := ValueError "k must be in range [1,n_nodes)"%string.
Definition ConnectomeShapeError : exn := ValueError "Connectomes must be square."%string.

(** ** Two-dimensional arrays *)

Module Array.

Section Poly.
Context {A : Type}.

Record ndarray : Type := mk
  { shape0 : nat;            (* mat.shape[0], number of rows *)
    shape1 : nat;            (* mat.shape[1], number of columns *)
    data : list (list A) }.  (* the rows *)

(** The rows agree with the shape. *)
Definition wf (a : ndarray) : Prop :=
  length (data a) = shape0 a /\
  Forall (fun r => length r = shape1 a) (data a).

(** [a[i, j]], with [d] read outside the array. *)
Definition get (d : A) (a : ndarray) (i j : nat) : A :=
  nth j (nth i (data a) []) d.

(** The array of the given shape whose entry [(i, j)] is [f i j]. *)
Definition tabulate (n m : nat) (f : nat -> nat -> A) : ndarray :=
  mk n m (map (fun i => map (fun j => f i j) (seq 0 m)) (seq 0 n)).

(** [a[:, j]] as a list. *)
Definition column (d : A) (a : ndarray) (j : nat) : list A :=
  map (fun i => get d a i j) (seq 0 (shape0 a)).

(** [a[i, :]] as a list. *)
Definition row (d : A) (a : ndarray) (i : nat) : list A :=
  map (fun j => get d a i j) (seq 0 (shape1 a)).

(** [a.ravel()]: the entries in row-major order. *)
Definition ravel (d : A) (a : ndarray) : list A :=
  flat_map (row d a) (seq 0 (shape0 a)).

(** [a.transpose()]. *)
Definition transpose (d : A) (a : ndarray) : ndarray :=
  tabulate (shape1 a) (shape0 a) (fun i j => get d a j i).

(** [a[i, j] = v] (in range; numpy raises IndexError out of range,
    which no caller in the module provokes). *)
Definition set (d : A) (a : ndarray) (i j : nat) (v : A) : ndarray :=
  tabulate (shape0 a) (shape1 a)
    (fun i' j' => if (i' =? i)%nat && (j' =? j)%nat then v else get d a i' j').
End Poly.

Arguments ndarray A : clear implicits.

(** Entry-wise application of a function, as numpy's ufuncs do. *)
Definition map1 {A B : Type} (d : A) (f : A -> B) (a : ndarray A) : ndarray B :=
  tabulate (shape0 a) (shape1 a) (fun i j => f (get d a i j)).

(** Entry-wise combination of two arrays of one shape. *)
Definition map2 {A B C : Type} (da : A) (db : B) (f : A -> B -> C)
    (a : ndarray A) (b : ndarray B) : ndarray C :=
  tabulate (shape0 a) (shape1 a) (fun i j => f (get da a i j) (get db b i j)).

End Array.

Import Array.

Definition matrix : Type := ndarray Q.
Definition mask_array : Type := ndarray bool.

Notation "a .[ i , j ]" := (get 0%Q a i j)
  (at level 1, left associativity, format "a .[ i ,  j ]").
Notation "a .?[ i , j ]" := (get false a i j)
  (at level 1, left associativity, format "a .?[ i ,  j ]").

(** ** numpy routines on rational arrays *)

Definition Qneq_bool (x y : Q) : bool := negb (Qeq_bool x y).
Definition Qlt_bool (x y : Q) : bool := negb (Qle_bool y x).

(** [a + b] for arrays of one shape. *)
Definition np_add (a b : matrix) : matrix := map2 0 0 Qplus a b.
(** [a / c] for a scalar [c]. *)
Definition np_divide (a : matrix) (c : Q) : matrix := map1 0 (fun x => x / c) a.
(** [np.ceil(a)]. *)
Definition np_ceil (a : matrix) : matrix :=
  map1 0 (fun x => inject_Z (Qceiling x)) a.
(** [np.abs(a)]. *)
Definition np_abs (a : matrix) : matrix := map1 0 Qabs a.
(** [np.zeros((n, m), dtype=bool)]. *)
Definition np_zeros_bool (n m : nat) : mask_array :=
  tabulate n m (fun _ _ => false).
(** [np.fill_diagonal(a, v)], as a new value. *)
Definition fill_diagonal (a : matrix) (v : Q) : matrix :=
  tabulate (shape0 a) (shape1 a)
    (fun i j => if (i =? j)%nat then v else a.[i, j]).
(** [a[mask] = v], as a new value. *)
Definition assign_where (a : matrix) (mask : mask_array) (v : Q) : matrix :=
  tabulate (shape0 a) (shape1 a)
    (fun i j => if mask.?[i, j] then v else a.[i, j]).
(** [~mask]. *)
Definition np_invert (mask : mask_array) : mask_array := map1 false negb mask.
(** [(a == b).all()] for arrays of one shape. *)
Definition np_all_equal (a b : matrix) : bool :=
  forallb (fun x => x) (ravel true (map2 0 0 Qeq_bool a b)).

(** [np.unique] sorts the values and drops repetitions; here by
    insertion into a strictly increasing list. *)
Fixpoint insert_unique (x : Q) (l : list Q) : list Q :=
  match l with
  | [] => [x]
  | y :: t =>
      if Qeq_bool x y then l
      else if Qle_bool x y then x :: l
      else y :: insert_unique x t
  end.

Definition np_unique (l : list Q) : list Q := fold_right insert_unique [] l.

(** ** [make_undirected] *)

Definition make_undirected (mat : matrix) : result matrix :=
  if negb (shape0 mat =? shape1 mat)%nat then Raise ShapeError
  else
    let sym := np_divide (np_add mat (transpose 0 mat)) 2 in
    if (length (np_unique (ravel 0%Q mat)) =? 2)%nat
    then Return (np_ceil sym)
    else Return sym.

(** ** Sorting routines of numpy *)

(** [ndarray.argsort()] returns the indices that sort the array.  The
    default sort kind is not stable, so the order among equal keys is
    left open: the builders are stated over any [argsort] that returns a
    permutation of the indices along which the keys ascend. *)
Class ArgSort : Type :=
  { argsort : list Q -> list nat;
    argsort_perm : forall l, Permutation (argsort l) (seq 0 (length l));
    argsort_sorted : forall l,
      StronglySorted (fun a b => nth a l 0 <= nth b l 0) (argsort l) }.

(** One such routine: insertion of the indices from the right, an index
    going before the first one whose key is not smaller (a stable sort). *)
Fixpoint insert_index (l : list Q) (i : nat) (s : list nat) : list nat :=
  match s with
  | [] => [i]
  | j :: t =>
      if Qle_bool (nth i l 0) (nth j l 0) then i :: s
      else j :: insert_index l i t
  end.

Definition argsort_stable (l : list Q) : list nat :=
  fold_right (insert_index l) [] (seq 0 (length l)).

(** Sorting of values, for the quantiles. *)
Fixpoint insert_value (x : Q) (s : list Q) : list Q :=
  match s with
  | [] => [x]
  | y :: t => if Qle_bool x y then x :: s else y :: insert_value x t
  end.

Definition np_sort (l : list Q) : list Q := fold_right insert_value [] l.

(** [l[-m:]] for [m > 0]: the last [m] elements, all of [l] when it is
    shorter. *)
Definition slice_last {A : Type} (m : nat) (l : list A) : list A :=
  skipn (length l - m) l.

(** ** [knn_graph] *)

(** [mask[:, i][neighbours] = True]: the column view is written at every
    listed row. *)
Definition set_rows (mask : mask_array) (rows : list nat) (i : nat) (v : bool)
  : mask_array :=
  fold_left (fun mk r => set false mk r i v) rows mask.

Section Knn.
Context {AS : ArgSort}.

(** One turn of the loop over the columns. *)
Definition knn_mask_step (m : matrix) (k : Z) (mask : mask_array) (i : nat)
  : mask_array :=
  let sorted_ind := argsort (column 0 m i) in
  let neighbours := slice_last (Z.to_nat (k + 1)) sorted_ind in
  set_rows mask neighbours i true.

Definition knn_mask (m : matrix) (k : Z) (dim : nat) : mask_array :=
  fold_left (knn_mask_step m k) (seq 0 dim) (np_zeros_bool dim dim).

Definition knn_graph (mat : matrix) (k : Z) (selfloops symmetric : bool)
  : result matrix :=
  if negb (shape0 mat =? shape1 mat)%nat then Raise ShapeError
  else
    let dim := shape0 mat in
    if (k <=? 0)%Z || (Z.of_nat dim <=? k)%Z then Raise RangeError
    else
      let m := np_abs mat in
      let mask := knn_mask m k dim in
      let adj := assign_where mat (np_invert mask) 0 in
      let adj := if negb selfloops then fill_diagonal adj 0 else adj in
      if symmetric then make_undirected adj else Return adj.
End Knn.

(** ** [knn_graph_quantile] *)

(** [np.quantile] of a 1-D array with the default linear interpolation:
    the value at the virtual index [q * (n - 1)] of the sorted array. *)
Definition quantile_1d (l : list Q) (q : Q) : Q :=
  let s := np_sort l in
  let n := length l in
  let virtual := q * inject_Z (Z.of_nat (n - 1)) in
  let previous := Z.to_nat (Qfloor virtual) in
  let next := Nat.min (previous + 1) (n - 1) in
  let gamma := virtual - inject_Z (Qfloor virtual) in
  nth previous s 0 + (nth next s 0 - nth previous s 0) * gamma.

(** [np.quantile(a, q, axis=0)]: one value per column. *)
Definition quantile_axis0 (a : matrix) (q : Q) : list Q :=
  map (fun j => quantile_1d (column 0 a j) q) (seq 0 (shape1 a)).

(** [np.quantile(a, q, axis=1)]: one value per row. *)
Definition quantile_axis1 (a : matrix) (q : Q) : list Q :=
  map (fun i => quantile_1d (row 0 a i) q) (seq 0 (shape0 a)).

(** [v[:, np.newaxis]], of shape (n, 1), and [v[np.newaxis, :]], of
    shape (1, n). *)
Definition newaxis_col (v : list Q) : matrix :=
  tabulate (length v) 1 (fun i _ => nth i v 0).
Definition newaxis_row (v : list Q) : matrix :=
  tabulate 1 (length v) (fun _ j => nth j v 0).

(** Broadcasting: an axis of length 1 is stretched to the other
    operand's length. *)
Definition bshape (n m : nat) : nat := if (n =? 1)%nat then m else n.
Definition bindex (n i : nat) : nat := if (n =? 1)%nat then 0%nat else i.

(** [a < b] with broadcasting. *)
Definition np_less (a b : matrix) : mask_array :=
  tabulate (bshape (shape0 a) (shape0 b)) (bshape (shape1 a) (shape1 b))
    (fun i j =>
       Qlt_bool a.[bindex (shape0 a) i, bindex (shape1 a) j]
                b.[bindex (shape0 b) i, bindex (shape1 b) j]).

(** [m1 & m2] for masks of one shape. *)
Definition np_and (m1 m2 : mask_array) : mask_array := map2 false false andb m1 m2.

Definition knn_graph_quantile (mat : matrix) (self_loops : bool) (k : Z)
    (symmetric : bool) : result matrix :=
  if negb (shape0 mat =? shape1 mat)%nat then Raise ShapeError
  else
    let dim := shape0 mat in
    if (k <=? 0)%Z || (Z.of_nat dim <=? k)%Z then Raise RangeError
    else
      let is_directed := negb (np_all_equal mat (transpose 0 mat)) in
      let mat := np_abs mat in
      let adj := mat in
      let q := inject_Z (Z.of_nat dim - k - 1) / inject_Z (Z.of_nat dim) in
      let quantile_h := quantile_axis0 mat q in
      let mask_not_neighbours := np_less mat (newaxis_col quantile_h) in
      let mask_not_neighbours :=
        if is_directed then
          let quantile_v := quantile_axis1 mat q in
          np_and mask_not_neighbours (np_less adj (newaxis_row quantile_v))
        else mask_not_neighbours in
      let adj := assign_where adj mask_not_neighbours 0 in
      let adj := if negb self_loops then fill_diagonal adj 0 else adj in
      if symmetric then make_undirected adj else Return adj.

(** ** Graph objects *)

(** The undirected [networkx.Graph] over the nodes [0 .. n-1]: for every
    node its neighbours with the edge weight, in insertion order (the
    adjacency dictionaries of networkx keep insertion order). *)
Definition Graph : Type := list (list (nat * Q)).

(** [adj[u][v] = w]: a present key keeps its place and takes the new
    value, a new key goes last. *)
Fixpoint assoc_set (v : nat) (w : Q) (nbrs : list (nat * Q)) : list (nat * Q) :=
  match nbrs with
  | [] => [(v, w)]
  | (v', w') :: t =>
      if (v' =? v)%nat then (v, w) :: t else (v', w') :: assoc_set v w t
  end.

Fixpoint update_nth {A : Type} (u : nat) (f : A -> A) (l : list A) : list A :=
  match l, u with
  | [], _ => []
  | x :: t, O => f x :: t
  | x :: t, S u' => x :: update_nth u' f t
  end.

(** [Graph.add_edge(u, v, weight=w)]: both adjacency entries share the
    attribute. *)
Definition add_edge (g : Graph) (u v : nat) (w : Q) : Graph :=
  update_nth v (assoc_set u w) (update_nth u (assoc_set v w) g).

(** [np.nonzero(a)], zipped: the positions of the nonzero entries in
    row-major order. *)
Definition nonzero (a : matrix) : list (nat * nat) :=
  filter (fun p => Qneq_bool a.[fst p, snd p] 0)
         (list_prod (seq 0 (shape0 a)) (seq 0 (shape1 a))).

(** [networkx.from_numpy_array(a)] with its default [create_using]
    (an undirected [Graph]): the nodes [0 .. n-1], then one [add_edge]
    per nonzero entry, in row-major order, weighted by the entry. *)
Definition from_numpy_array (a : matrix) : Graph :=
  fold_left (fun g p => add_edge g (fst p) (snd p) a.[fst p, snd p])
            (nonzero a) (repeat [] (shape0 a)).

(** The torch_geometric [Data] object, as far as this module fills it:
    the edge index (pairs source, target), the parallel [weight]
    attribute, and the number of nodes. *)
Record Data : Type := mkData
  { edge_index : list (nat * nat);
    weight : list Q;
    num_nodes : nat }.

(** [G.to_directed().edges(data=True)] of an undirected graph: every
    adjacency entry, node by node. *)
Definition directed_edges (g : Graph) : list (nat * nat * Q) :=
  flat_map (fun u => map (fun vw => (u, fst vw, snd vw)) (nth u g []))
           (seq 0 (length g)).

(** [torch_geometric.utils.from_networkx(G)]: an undirected graph is
    first made directed, then its edges and their attributes are listed. *)
Definition from_networkx (g : Graph) : Data :=
  let es := directed_edges g in
  mkData (map (fun e => (fst (fst e), snd (fst e))) es)
         (map (fun e => snd e) es)
         (length g).

(** ** [make_group_graph] *)

(** [np.array(connectomes).mean(axis=0)] for a non-empty list of arrays
    of the first one's shape (what the docstring requires). *)
Definition mean_axis0 (first : matrix) (connectomes : list matrix) : matrix :=
  tabulate (shape0 first) (shape1 first)
    (fun i j =>
       fold_right Qplus 0 (map (fun c => c.[i, j]) connectomes)
       / inject_Z (Z.of_nat (length connectomes))).

Section Group.
Context {AS : ArgSort}.

Definition make_group_graph (connectomes : list matrix) (k : Z)
    (selfloops symmetric : bool) : result Data :=
  match connectomes with
  | [] => Raise (IndexError "list index out of range"%string)
  | first :: _ =>
      if negb (shape0 first =? shape1 first)%nat
      then Raise ConnectomeShapeError
      else
        let avg_conn := mean_axis0 first connectomes in
        bind (knn_graph avg_conn k selfloops symmetric) (fun avg_conn_k =>
          let graph := from_numpy_array avg_conn_k in
          Return (from_networkx graph))
  end.
End Group.

(** ** Vocabulary of the statements *)

(** The entry the symmetrizer computes at [(i, j)]. *)
Definition undirected_entry (mat : matrix) (i j : nat) : Q :=
  let avg := (mat.[i, j] + mat.[j, i]) / 2 in
  if (length (np_unique (ravel 0%Q mat)) =? 2)%nat
  then inject_Z (Qceiling avg) else avg.

(** [np.count_nonzero] of a 1-D array. *)
Definition count_nonzero (l : list Q) : nat :=
  length (filter (fun x => Qneq_bool x 0) l).

Section KnnVocabulary.
Context {AS : ArgSort}.

(** The rows the loop keeps in column [i]. *)
Definition kept_rows (m : matrix) (k : Z) (i : nat) : list nat :=
  slice_last (Z.to_nat (k + 1)) (argsort (column 0 m i)).

(** The matrix [adj] of [knn_graph] before the optional symmetrization. *)
Definition knn_entry (mat : matrix) (k : Z) (selfloops : bool) (i j : nat) : Q :=
  if negb selfloops && (i =? j)%nat then 0
  else if (knn_mask (np_abs mat) k (shape0 mat)).?[i, j] then mat.[i, j]
  else 0.
End KnnVocabulary.

(** The quantile level [(dim - k - 1) / dim] of the source. *)
Definition knn_level (dim : nat) (k : Z) : Q :=
  inject_Z (Z.of_nat dim - k - 1) / inject_Z (Z.of_nat dim).

(** The matrix [adj] of [knn_graph_quantile] before the optional
    symmetrization: the entry [(i, j)] of |mat| is compared with the
    quantile of column [i] and, for a directed input, with the quantile
    of row [j]. *)
Definition quantile_entry (mat : matrix) (self_loops : bool) (k : Z) (i j : nat) : Q :=
  let a := np_abs mat in
  let q := knn_level (shape0 mat) k in
  let below_h := Qlt_bool a.[i, j] (quantile_1d (column 0 a i) q) in
  let below_v := Qlt_bool a.[i, j] (quantile_1d (row 0 a j) q) in
  let directed := negb (np_all_equal mat (transpose 0 mat)) in
  if negb self_loops && (i =? j)%nat then 0
  else if (if directed then below_h && below_v else below_h) then 0
  else a.[i, j].

(** ** Concrete inputs *)

(** A symmetric 3 x 3 matrix whose columns have different quantiles. *)
Definition symmetric3 : matrix :=
  Array.mk 3 3 [[10; 2; 10]; [2; 1; 1]; [10; 1; 1]].

(** A 4 x 4 matrix over 0 and 1 with the one-directional edge 0 -> 1. *)
Definition binary4 : matrix :=
  Array.mk 4 4 [[0; 1; 0; 0]; [0; 0; 1; 0]; [0; 1; 0; 1]; [1; 0; 1; 0]].

(** A signed 3 x 3 matrix without zero entries. *)
Definition signed3 : matrix :=
  Array.mk 3 3 [[1; 1; 1]; [-2; 2; 2]; [3; -3; 3]].

(** A 3 x 4 matrix. *)
Definition wide34 : matrix :=
  Array.mk 3 4 [[1; 2; 3; 4]; [5; 6; 7; 8]; [9; 10; 11; 12]].

(** A 5 x 5 matrix. *)
Definition dense5 : matrix :=
  Array.mk 5 5
    [[1; 2; 3; 4; 5]; [6; 7; 8; 9; 10]; [11; 12; 13; 14; 15];
     [16; 17; 18; 19; 20]; [21; 22; 23; 24; 25]].

(** * Properties *)

(** ** Arrays *)

Section ArrayFacts.
Context {A : Type}.
Implicit Types (d : A) (a : ndarray A).

Lemma get_tabulate d n m (f : nat -> nat -> A) i j :
  (i < n)%nat -> (j < m)%nat -> get d (tabulate n m f) i j = f i j.
Proof.
  intros Hi Hj. unfold get, tabulate; simpl.
  rewrite (nth_indep _ [] (map (fun j => f 0%nat j) (seq 0 m)))
    by (rewrite length_map, length_seq; exact Hi).
  rewrite (map_nth (fun i => map (fun j => f i j) (seq 0 m))), seq_nth by exact Hi.
  simpl. rewrite (nth_indep _ d (f i 0%nat))
    by (rewrite length_map, length_seq; exact Hj).
  rewrite (map_nth (fun j => f i j)), seq_nth by exact Hj. reflexivity.
Qed.

Lemma get_tabulate_out d n m (f : nat -> nat -> A) i j :
  (n <= i)%nat \/ (m <= j)%nat -> get d (tabulate n m f) i j = d.
Proof.
  intros H. unfold get, tabulate; simpl.
  destruct (Nat.lt_ge_cases i n) as [Hi | Hi].
  - rewrite (nth_indep _ [] (map (fun j => f 0%nat j) (seq 0 m)))
      by (rewrite length_map, length_seq; exact Hi).
    rewrite (map_nth (fun i => map (fun j => f i j) (seq 0 m))), seq_nth by exact Hi.
    apply nth_overflow. rewrite length_map, length_seq. lia.
  - rewrite (nth_overflow _ []) by (rewrite length_map, length_seq; exact Hi).
    destruct j; reflexivity.
Qed.

Lemma wf_tabulate n m (f : nat -> nat -> A) : wf (tabulate n m f).
Proof.
  split; simpl.
  - now rewrite length_map, length_seq.
  - apply Forall_forall. intros r Hr. apply in_map_iff in Hr.
    destruct Hr as (i & <- & _). now rewrite length_map, length_seq.
Qed.

Lemma nth_column d a j i :
  (i < shape0 a)%nat -> nth i (column d a j) d = get d a i j.
Proof.
  intros Hi. unfold column.
  rewrite (nth_indep _ d (get d a 0%nat j)) by (rewrite length_map, length_seq; exact Hi).
  rewrite (map_nth (fun i => get d a i j)), seq_nth by exact Hi. reflexivity.
Qed.

Lemma length_column d a j : length (column d a j) = shape0 a.
Proof. unfold column. now rewrite length_map, length_seq. Qed.

Lemma length_row d a i : length (row d a i) = shape1 a.
Proof. unfold row. now rewrite length_map, length_seq. Qed.

Lemma in_ravel d a x :
  In x (ravel d a) <->
  exists i j, (i < shape0 a)%nat /\ (j < shape1 a)%nat /\ x = get d a i j.
Proof.
  unfold ravel, row. rewrite in_flat_map. split.
  - intros (i & Hi & Hx). apply in_map_iff in Hx. destruct Hx as (j & <- & Hj).
    apply in_seq in Hi, Hj. exists i, j. repeat split; lia.
  - intros (i & j & Hi & Hj & ->). exists i. split.
    + apply in_seq. lia.
    + apply in_map_iff. exists j. split; [reflexivity | apply in_seq; lia].
Qed.
End ArrayFacts.

(** ** The sorting routines *)

Lemma insert_index_perm l i s : Permutation (insert_index l i s) (i :: s).
Proof.
  induction s as [| j t IH]; simpl.
  - reflexivity.
  - destruct (Qle_bool (nth i l 0) (nth j l 0)).
    + reflexivity.
    + rewrite IH. apply perm_swap.
Qed.

Lemma insert_index_sorted l i s :
  StronglySorted (fun a b => nth a l 0 <= nth b l 0) s ->
  StronglySorted (fun a b => nth a l 0 <= nth b l 0) (insert_index l i s).
Proof.
  induction s as [| j t IH]; simpl; intros Hs.
  - repeat constructor.
  - inversion Hs as [| ? ? Ht Hj]; subst.
    destruct (Qle_bool (nth i l 0) (nth j l 0)) eqn:E.
    + apply Qle_bool_iff in E. constructor; [exact Hs |].
      constructor; [exact E |].
      eapply Forall_impl; [| exact Hj]. intros b Hb. simpl in Hb.
      eapply Qle_trans; eassumption.
    + assert (Hlt : nth j l 0 <= nth i l 0).
      { destruct (Qlt_le_dec (nth j l 0) (nth i l 0)) as [H | H].
        - apply Qlt_le_weak, H.
        - apply Qle_bool_iff in H. congruence. }
      constructor; [apply IH, Ht |].
      eapply Permutation_Forall; [symmetry; apply insert_index_perm |].
      constructor; assumption.
Qed.

Lemma argsort_stable_perm l : Permutation (argsort_stable l) (seq 0 (length l)).
Proof.
  unfold argsort_stable. induction (seq 0 (length l)) as [| i s IH]; simpl.
  - reflexivity.
  - rewrite insert_index_perm. now constructor.
Qed.

Lemma argsort_stable_sorted l :
  StronglySorted (fun a b => nth a l 0 <= nth b l 0) (argsort_stable l).
Proof.
  unfold argsort_stable. induction (seq 0 (length l)) as [| i s IH]; simpl.
  - constructor.
  - apply insert_index_sorted, IH.
Qed.

#[export] Instance StableArgSort : ArgSort :=
  {| argsort := argsort_stable;
     argsort_perm := argsort_stable_perm;
     argsort_sorted := argsort_stable_sorted |}.

Section TabulateExt.
Context {A : Type}.

Lemma tabulate_ext n m (f g : nat -> nat -> A) :
  (forall i j, (i < n)%nat -> (j < m)%nat -> f i j = g i j) ->
  tabulate n m f = tabulate n m g.
Proof.
  intros H. unfold tabulate. f_equal.
  apply map_ext_in. intros i Hi. apply in_seq in Hi.
  apply map_ext_in. intros j Hj. apply in_seq in Hj.
  apply H; lia.
Qed.

(** A well-formed array is the table of its entries. *)
Lemma tabulate_get (d : A) (a : ndarray A) :
  wf a -> tabulate (shape0 a) (shape1 a) (fun i j => get d a i j) = a.
Proof.
  destruct a as [n m rows]. unfold wf, tabulate, get; simpl.
  intros [Hlen Hrows]. f_equal.
  apply (nth_ext _ _ [] []).
  - now rewrite length_map, length_seq.
  - intros i Hi. rewrite length_map, length_seq in Hi.
    rewrite (nth_indep _ [] (map (fun j => nth j (nth 0 rows []) d) (seq 0 m)))
      by (rewrite length_map, length_seq; exact Hi).
    rewrite (map_nth (fun i => map (fun j => nth j (nth i rows []) d) (seq 0 m))).
    rewrite seq_nth by exact Hi. simpl.
    assert (Hr : length (nth i rows []) = m).
    { rewrite Forall_forall in Hrows. apply Hrows, nth_In. lia. }
    apply (nth_ext _ _ d d).
    + now rewrite length_map, length_seq.
    + intros j Hj. rewrite length_map, length_seq in Hj.
      rewrite (nth_indep _ d (nth 0 (nth i rows []) d))
        by (rewrite length_map, length_seq; exact Hj).
      rewrite (map_nth (fun j => nth j (nth i rows []) d)).
      rewrite seq_nth by exact Hj. reflexivity.
Qed.
End TabulateExt.

(** Reading an entry of an entry-wise built array. *)
Ltac read_entry :=
  repeat first
    [ rewrite get_tabulate by (simpl; lia)
    | progress cbn [shape0 shape1 tabulate] ].

(** ** Distinct values *)

Lemma insert_unique_In x l z :
  In z (insert_unique x l) -> z = x \/ In z l.
Proof.
  induction l as [| y t IH]; simpl.
  - intros [H | []]. now left.
  - destruct (Qeq_bool x y); [simpl; tauto |].
    destruct (Qle_bool x y); simpl.
    + intros [H | H]; [now left | now right].
    + intros [H | H]; [tauto | destruct (IH H); tauto].
Qed.

(** [np_unique] keeps every value of the list, up to numeric equality ... *)
Lemma insert_unique_has x l z :
  z == x \/ (exists y, In y l /\ y == z) ->
  exists y, In y (insert_unique x l) /\ y == z.
Proof.
  induction l as [| y t IH]; simpl.
  - intros [H | (y & [] & _)]. exists x. split; [now left | now symmetry].
  - destruct (Qeq_bool x y) eqn:E.
    + apply Qeq_bool_iff in E. intros [H | (y' & Hy' & Hz)].
      * exists y. split; [now left | rewrite H; now symmetry].
      * exists y'. auto.
    + destruct (Qle_bool x y).
      * intros [H | (y' & Hy' & Hz)].
        -- exists x. split; [now left | now symmetry].
        -- exists y'. split; [now right | exact Hz].
      * intros [H | (y' & [-> | Hy'] & Hz)].
        -- destruct IH as (w & Hw & Hwz); [now left |]. exists w. simpl; auto.
        -- exists y'. simpl; auto.
        -- destruct IH as (w & Hw & Hwz); [right; eauto |]. exists w. simpl; auto.
Qed.

Lemma np_unique_has l z :
  In z l -> exists y, In y (np_unique l) /\ y == z.
Proof.
  induction l as [| x t IH]; simpl; [tauto |].
  intros [-> | H]; apply insert_unique_has.
  - left. reflexivity.
  - right. apply IH, H.
Qed.

Lemma np_unique_In l z : In z (np_unique l) -> In z l.
Proof.
  induction l as [| x t IH]; simpl; [tauto |].
  intros H. apply insert_unique_In in H.
  destruct H as [-> | H]; [now left | right; apply IH, H].
Qed.

(** ... and lists them strictly ascending, so each value once. *)
Lemma insert_unique_sorted x l :
  StronglySorted Qlt l -> StronglySorted Qlt (insert_unique x l).
Proof.
  induction l as [| y t IH]; simpl; intros Hs.
  - repeat constructor.
  - inversion Hs as [| ? ? Ht Hy]; subst.
    destruct (Qeq_bool x y) eqn:E; [exact Hs |].
    destruct (Qle_bool x y) eqn:L.
    + apply Qle_bool_iff in L.
      assert (Hxy : x < y).
      { apply Qle_lteq in L. destruct L as [L | L]; [exact L |].
        apply Qeq_bool_iff in L. congruence. }
      constructor; [exact Hs |]. constructor; [exact Hxy |].
      eapply Forall_impl; [| exact Hy]. intros b Hb. simpl in Hb.
      eapply Qlt_trans; eassumption.
    + assert (Hyx : y < x).
      { destruct (Qlt_le_dec y x) as [H | H]; [exact H |].
        apply Qle_bool_iff in H. congruence. }
      constructor; [apply IH, Ht |].
      apply Forall_forall. intros z Hz. apply insert_unique_In in Hz.
      destruct Hz as [-> | Hz]; [exact Hyx |].
      rewrite Forall_forall in Hy. apply Hy, Hz.
Qed.

Lemma np_unique_sorted l : StronglySorted Qlt (np_unique l).
Proof.
  induction l as [| x t IH]; simpl.
  - constructor.
  - apply insert_unique_sorted, IH.
Qed.

(** A list over the two values 0 and 1 in which both occur has exactly
    two distinct values. *)
(** Closing a goal from a false comparison of two literals. *)
Ltac q_absurd H :=
  exfalso; unfold Qeq, Qlt, Qle in H; simpl in H; first [discriminate H | lia].

Lemma np_unique_binary l :
  (forall x, In x l -> x == 0 \/ x == 1) ->
  (exists x, In x l /\ x == 0) ->
  (exists x, In x l /\ x == 1) ->
  length (np_unique l) = 2%nat.
Proof.
  intros Hbin (z & Hz & Hz0) (o & Ho & Ho1).
  pose proof (np_unique_sorted l) as Hs.
  assert (Hu : forall x, In x (np_unique l) -> x == 0 \/ x == 1)
    by (intros x Hx; apply Hbin, np_unique_In, Hx).
  apply np_unique_has in Hz, Ho.
  destruct Hz as (z' & Hz' & Ez), Ho as (o' & Ho' & Eo).
  rewrite Hz0 in Ez. rewrite Ho1 in Eo. clear Hbin z o Hz0 Ho1.
  destruct (np_unique l) as [| a [| b r]].
  - destruct Hz'.
  - destruct Hz' as [-> | []], Ho' as [<- | []].
    rewrite Ez in Eo. q_absurd Eo.
  - inversion Hs as [| ? ? Hs' Ha]; subst.
    inversion Hs' as [| ? ? Hs'' Hb]; subst.
    inversion Ha as [| ? ? Hab _]; subst.
    assert (Ea : a == 0).
    { destruct (Hu a) as [E | E]; [now left | exact E |].
      destruct (Hu b) as [E' | E']; [simpl; auto | |];
        rewrite E, E' in Hab; q_absurd Hab. }
    assert (Eb : b == 1).
    { destruct (Hu b) as [E | E]; [simpl; auto | | exact E].
      rewrite Ea, E in Hab. q_absurd Hab. }
    destruct r as [| c r]; [reflexivity |].
    inversion Hb as [| ? ? Hbc _]; subst.
    destruct (Hu c) as [E | E]; [simpl; auto | |];
      rewrite Eb, E in Hbc; q_absurd Hbc.
Qed.

(** ** [make_undirected] *)

Lemma average_entry (M : matrix) i j :
  shape0 M = shape1 M -> (i < shape0 M)%nat -> (j < shape0 M)%nat ->
  (np_divide (np_add M (transpose 0 M)) 2).[i, j] = (M.[i, j] + M.[j, i]) / 2.
Proof.
  intros Hsq Hi Hj. unfold np_divide, np_add, map1, map2, transpose.
  read_entry. reflexivity.
Qed.

Lemma make_undirected_returns (M : matrix) :
  shape0 M = shape1 M ->
  exists S, make_undirected M = Return S /\ wf S /\
    shape0 S = shape0 M /\ shape1 S = shape0 M /\
    forall i j, (i < shape0 M)%nat -> (j < shape0 M)%nat ->
      S.[i, j] = undirected_entry M i j.
Proof.
  intros Hsq. unfold make_undirected, undirected_entry.
  rewrite <- Hsq, Nat.eqb_refl. simpl negb. cbv iota.
  destruct (length (np_unique (ravel 0%Q M)) =? 2)%nat; eexists;
    (split; [reflexivity |]); (split; [apply wf_tabulate |]);
    (split; [reflexivity |]); (split; [simpl; congruence |]); intros i j Hi Hj.
  - unfold np_ceil, map1 at 1. rewrite get_tabulate by (simpl; lia).
    rewrite average_entry by assumption. reflexivity.
  - apply average_entry; assumption.
Qed.

Lemma Qplus_comm_eq (x y : Q) : Qplus x y = Qplus y x.
Proof.
  unfold Qplus. f_equal; [apply Z.add_comm | apply Pos.mul_comm].
Qed.

Lemma undirected_entry_sym (M : matrix) i j :
  undirected_entry M i j = undirected_entry M j i.
Proof.
  unfold undirected_entry. rewrite (Qplus_comm_eq M.[i, j]). reflexivity.
Qed.

Lemma Qceiling_half : Qceiling ((1 + 0) / 2) = 1%Z /\ Qceiling ((0 + 1) / 2) = 1%Z.
Proof. split; reflexivity. Qed.

(** C1.  On a square matrix the symmetrizer returns a matrix of the same
    shape whose entries are those of (M + M^T)/2 when the number of
    distinct values of M is not 2, and the ceilings of those entries when
    it is 2.  In particular, on a matrix over the values 0 and 1 with
    M[0,1] = 1 and M[1,0] = 0, the entries [0,1] and [1,0] of the result
    are both exactly 1. *)
Theorem make_undirected_average_or_ceiling (M : matrix) :
  shape0 M = shape1 M ->
  exists S, make_undirected M = Return S /\
    shape0 S = shape0 M /\ shape1 S = shape1 M /\
    (length (np_unique (ravel 0%Q M)) <> 2%nat ->
       forall i j, (i < shape0 M)%nat -> (j < shape0 M)%nat ->
         S.[i, j] = (M.[i, j] + M.[j, i]) / 2) /\
    (length (np_unique (ravel 0%Q M)) = 2%nat ->
       forall i j, (i < shape0 M)%nat -> (j < shape0 M)%nat ->
         S.[i, j] = inject_Z (Qceiling ((M.[i, j] + M.[j, i]) / 2))) /\
    ((forall i j, (i < shape0 M)%nat -> (j < shape0 M)%nat ->
         M.[i, j] == 0 \/ M.[i, j] == 1) ->
     (1 < shape0 M)%nat -> M.[0, 1] == 1 -> M.[1, 0] == 0 ->
     S.[0, 1] = 1 /\ S.[1, 0] = 1).
Proof.
  intros Hsq.
  destruct (make_undirected_returns M Hsq) as (S & HS & _ & H0 & H1 & Hent).
  exists S. split; [exact HS |]. split; [exact H0 |]. split; [congruence |].
  unfold undirected_entry in Hent.
  split; [| split].
  - intros Hne i j Hi Hj. rewrite Hent by assumption.
    apply Nat.eqb_neq in Hne. rewrite Hne. reflexivity.
  - intros He i j Hi Hj. rewrite Hent by assumption.
    rewrite He. reflexivity.
  - intros Hbin Hn H01 H10.
    assert (Hu : length (np_unique (ravel 0 M)) = 2%nat).
    { apply np_unique_binary.
      - intros x Hx. apply in_ravel in Hx.
        destruct Hx as (i & j & Hi & Hj & ->). apply Hbin; lia.
      - exists M.[1, 0]. split; [| exact H10].
        apply in_ravel. exists 1%nat, 0%nat. repeat split; lia.
      - exists M.[0, 1]. split; [| exact H01].
        apply in_ravel. exists 0%nat, 1%nat. repeat split; lia. }
    rewrite !Hent by lia. rewrite Hu. simpl Nat.eqb. cbv iota.
    rewrite H01, H10. split; reflexivity.
Qed.

(** C5.  On a square matrix the symmetrizer's result equals its own
    transpose, whichever branch produced it. *)
Theorem make_undirected_symmetric (M : matrix) :
  shape0 M = shape1 M ->
  exists S, make_undirected M = Return S /\ transpose 0 S = S.
Proof.
  intros Hsq.
  destruct (make_undirected_returns M Hsq) as (S & HS & Hwf & H0 & H1 & Hent).
  exists S. split; [exact HS |].
  rewrite <- (tabulate_get 0 S Hwf) at 2.
  unfold transpose. rewrite H0, H1.
  apply tabulate_ext. intros i j Hi Hj.
  rewrite !Hent by assumption. apply undirected_entry_sym.
Qed.

(** ** The keep-mask of [knn_graph] *)

Lemma shape_set_rows mask rows i v :
  shape0 (set_rows mask rows i v) = shape0 mask /\
  shape1 (set_rows mask rows i v) = shape1 mask.
Proof.
  unfold set_rows. revert mask.
  induction rows as [| r rows IH]; intros mask; simpl; [tauto |].
  destruct (IH (set false mask r i v)) as [-> ->]. simpl. tauto.
Qed.

Lemma get_set_rows mask rows i r c :
  (r < shape0 mask)%nat -> (c < shape1 mask)%nat ->
  (set_rows mask rows i true).?[r, c]
  = mask.?[r, c] || ((c =? i)%nat && existsb (Nat.eqb r) rows).
Proof.
  unfold set_rows. revert mask.
  induction rows as [| r0 rows IH]; intros mask Hr Hc; simpl.
  - now rewrite andb_false_r, orb_false_r.
  - rewrite IH by (simpl; assumption).
    unfold set. rewrite get_tabulate by assumption.
    destruct (r =? r0)%nat eqn:Er, (c =? i)%nat eqn:Ec; simpl;
      try reflexivity; now rewrite ?orb_true_r.
Qed.

Section KnnFacts.
Context {AS : ArgSort}.

Lemma knn_mask_fold m k cols mask :
  (shape0 (fold_left (knn_mask_step m k) cols mask) = shape0 mask /\
   shape1 (fold_left (knn_mask_step m k) cols mask) = shape1 mask) /\
  forall r c, (r < shape0 mask)%nat -> (c < shape1 mask)%nat ->
    (fold_left (knn_mask_step m k) cols mask).?[r, c]
    = mask.?[r, c]
      || (existsb (Nat.eqb c) cols && existsb (Nat.eqb r) (kept_rows m k c)).
Proof.
  revert mask. induction cols as [| i cols IH]; intros mask; simpl.
  - split; [tauto |]. intros. now rewrite orb_false_r.
  - destruct (IH (knn_mask_step m k mask i)) as [[S0 S1] IHg].
    unfold knn_mask_step in *.
    destruct (shape_set_rows mask (slice_last (Z.to_nat (k + 1))
                (argsort (column 0 m i))) i true) as [E0 E1].
    rewrite S0, S1, E0, E1. split; [tauto |].
    intros r c Hr Hc. rewrite IHg by congruence.
    rewrite get_set_rows by assumption.
    destruct (c =? i)%nat eqn:Ec.
    + apply Nat.eqb_eq in Ec. subst c. fold (kept_rows m k i).
      destruct (existsb (Nat.eqb r) (kept_rows m k i));
        simpl; now rewrite ?orb_true_r, ?andb_false_r, ?orb_false_r.
    + simpl. now rewrite orb_false_r.
Qed.

Lemma get_knn_mask m k dim r c :
  (r < dim)%nat -> (c < dim)%nat ->
  (knn_mask m k dim).?[r, c] = existsb (Nat.eqb r) (kept_rows m k c).
Proof.
  intros Hr Hc. unfold knn_mask.
  destruct (knn_mask_fold m k (seq 0 dim) (np_zeros_bool dim dim)) as [_ H].
  rewrite H by (simpl; assumption).
  unfold np_zeros_bool. rewrite get_tabulate by assumption. simpl.
  assert (E : existsb (Nat.eqb c) (seq 0 dim) = true).
  { apply existsb_exists. exists c. split; [apply in_seq; lia | apply Nat.eqb_refl]. }
  now rewrite E.
Qed.

Lemma shape_knn_mask m k dim :
  shape0 (knn_mask m k dim) = dim /\ shape1 (knn_mask m k dim) = dim.
Proof.
  unfold knn_mask.
  destruct (knn_mask_fold m k (seq 0 dim) (np_zeros_bool dim dim)) as [[H0 H1] _].
  rewrite H0, H1. simpl. tauto.
Qed.

Lemma knn_graph_returns (M : matrix) (k : Z) (selfloops symmetric : bool) :
  shape0 M = shape1 M ->
  (1 <= k <= Z.of_nat (shape0 M) - 1)%Z ->
  exists adj, wf adj /\ shape0 adj = shape0 M /\ shape1 adj = shape0 M /\
    (forall i j, (i < shape0 M)%nat -> (j < shape0 M)%nat ->
       adj.[i, j] = knn_entry M k selfloops i j) /\
    knn_graph M k selfloops symmetric
    = if symmetric then make_undirected adj else Return adj.
Proof.
  intros Hsq Hk. unfold knn_graph.
  rewrite <- Hsq, Nat.eqb_refl. simpl negb. cbv iota.
  assert (G : ((k <=? 0)%Z || (Z.of_nat (shape0 M) <=? k)%Z) = false).
  { apply orb_false_iff. split; apply Z.leb_gt; lia. }
  rewrite G. cbv zeta.
  eexists. split; [| split; [| split; [| split; [| reflexivity]]]].
  - destruct selfloops; simpl; apply wf_tabulate.
  - destruct selfloops; reflexivity.
  - destruct selfloops; simpl; congruence.
  - intros i j Hi Hj. unfold knn_entry.
    assert (Hm : (np_invert (knn_mask (np_abs M) k (shape0 M))).?[i, j]
                 = negb (knn_mask (np_abs M) k (shape0 M)).?[i, j]).
    { unfold np_invert, map1.
      destruct (shape_knn_mask (np_abs M) k (shape0 M)) as [-> ->].
      now rewrite get_tabulate by assumption. }
    destruct selfloops; simpl negb; cbv iota.
    + simpl andb. cbv iota. unfold assign_where.
      rewrite get_tabulate by lia. rewrite Hm.
      now destruct ((knn_mask (np_abs M) k (shape0 M)).?[i, j]).
    + unfold fill_diagonal, assign_where. cbn [shape0 shape1 tabulate].
      rewrite get_tabulate by lia. simpl andb.
      destruct (i =? j)%nat; [reflexivity |].
      rewrite get_tabulate by lia. rewrite Hm.
      now destruct ((knn_mask (np_abs M) k (shape0 M)).?[i, j]).
Qed.
End KnnFacts.

(** ** The mask of [knn_graph_quantile] *)

Lemma nth_map_seq {A : Type} (f : nat -> A) n i d :
  (i < n)%nat -> nth i (map f (seq 0 n)) d = f i.
Proof.
  intros Hi. rewrite (nth_indep _ d (f 0%nat)) by (rewrite length_map, length_seq; exact Hi).
  rewrite (map_nth f), seq_nth by exact Hi. reflexivity.
Qed.

Lemma get_np_abs (M : matrix) i j :
  (i < shape0 M)%nat -> (j < shape1 M)%nat -> (np_abs M).[i, j] = Qabs M.[i, j].
Proof. intros Hi Hj. unfold np_abs, map1. now rewrite get_tabulate. Qed.

(** [a < v[:, np.newaxis]] compares the entry [(i, j)] with [v[i]]. *)
Lemma get_less_newaxis_col (a : matrix) (v : list Q) i j :
  shape0 a = length v -> shape1 a <> 1%nat ->
  (i < shape0 a)%nat -> (j < shape1 a)%nat ->
  (np_less a (newaxis_col v)).?[i, j] = Qlt_bool a.[i, j] (nth i v 0).
Proof.
  intros Hv H1 Hi Hj. unfold np_less, newaxis_col. cbn [shape0 shape1 tabulate].
  assert (E1 : (shape1 a =? 1)%nat = false) by now apply Nat.eqb_neq.
  unfold bshape, bindex. rewrite <- Hv, E1, Nat.eqb_refl.
  destruct (shape0 a =? 1)%nat eqn:E0.
  - apply Nat.eqb_eq in E0. assert (i = 0%nat) by lia. subst i.
    rewrite get_tabulate by lia. rewrite get_tabulate by lia. reflexivity.
  - rewrite get_tabulate by lia. rewrite get_tabulate by lia. reflexivity.
Qed.

(** [a < v[np.newaxis, :]] compares the entry [(i, j)] with [v[j]]. *)
Lemma get_less_newaxis_row (a : matrix) (v : list Q) i j :
  shape1 a = length v -> shape0 a <> 1%nat ->
  (i < shape0 a)%nat -> (j < shape1 a)%nat ->
  (np_less a (newaxis_row v)).?[i, j] = Qlt_bool a.[i, j] (nth j v 0).
Proof.
  intros Hv H0 Hi Hj. unfold np_less, newaxis_row. cbn [shape0 shape1 tabulate].
  assert (E0 : (shape0 a =? 1)%nat = false) by now apply Nat.eqb_neq.
  unfold bshape, bindex. rewrite <- Hv, E0, Nat.eqb_refl.
  destruct (shape1 a =? 1)%nat eqn:E1.
  - apply Nat.eqb_eq in E1. assert (j = 0%nat) by lia. subst j.
    rewrite get_tabulate by lia. rewrite get_tabulate by lia. reflexivity.
  - rewrite get_tabulate by lia. rewrite get_tabulate by lia. reflexivity.
Qed.

Lemma shape_less_newaxis (a : matrix) (v : list Q) :
  shape0 a = shape1 a -> shape0 a = length v -> shape0 a <> 1%nat ->
  shape0 (np_less a (newaxis_col v)) = shape0 a /\
  shape1 (np_less a (newaxis_col v)) = shape0 a /\
  shape0 (np_less a (newaxis_row v)) = shape0 a /\
  shape1 (np_less a (newaxis_row v)) = shape0 a.
Proof.
  intros Hsq Hv H1. unfold np_less, newaxis_col, newaxis_row, bshape.
  cbn [shape0 shape1 tabulate]. rewrite <- Hsq, <- Hv.
  assert (E : (shape0 a =? 1)%nat = false) by now apply Nat.eqb_neq.
  rewrite E. tauto.
Qed.

Lemma knn_graph_quantile_returns (M : matrix) (self_loops : bool) (k : Z)
    (symmetric : bool) :
  shape0 M = shape1 M ->
  (1 <= k <= Z.of_nat (shape0 M) - 1)%Z ->
  exists adj, wf adj /\ shape0 adj = shape0 M /\ shape1 adj = shape0 M /\
    (forall i j, (i < shape0 M)%nat -> (j < shape0 M)%nat ->
       adj.[i, j] = quantile_entry M self_loops k i j) /\
    knn_graph_quantile M self_loops k symmetric
    = if symmetric then make_undirected adj else Return adj.
Proof.
  intros Hsq Hk. unfold knn_graph_quantile.
  rewrite <- Hsq, Nat.eqb_refl. simpl negb. cbv iota.
  assert (G : ((k <=? 0)%Z || (Z.of_nat (shape0 M) <=? k)%Z) = false).
  { apply orb_false_iff. split; apply Z.leb_gt; lia. }
  rewrite G. cbv zeta. fold (knn_level (shape0 M) k).
  set (q := knn_level (shape0 M) k).
  set (a := np_abs M).
  assert (Ha0 : shape0 a = shape0 M) by reflexivity.
  assert (Ha1 : shape1 a = shape0 M) by (simpl; congruence).
  assert (Hn : shape0 M <> 1%nat) by lia.
  assert (Lh : length (quantile_axis0 a q) = shape0 M)
    by (unfold quantile_axis0; now rewrite length_map, length_seq).
  assert (Lv : length (quantile_axis1 a q) = shape0 M)
    by (unfold quantile_axis1; now rewrite length_map, length_seq).
  eexists. split; [| split; [| split; [| split; [| reflexivity]]]].
  - destruct self_loops; simpl; apply wf_tabulate.
  - destruct self_loops; reflexivity.
  - destruct self_loops; simpl; congruence.
  - intros i j Hi Hj. unfold quantile_entry. cbv zeta. fold a. fold q.
    set (mask := if negb (np_all_equal M (transpose 0 M))
                 then np_and _ _ else _).
    assert (Hm : mask.?[i, j]
                 = if negb (np_all_equal M (transpose 0 M))
                   then Qlt_bool a.[i, j] (quantile_1d (column 0 a i) q)
                        && Qlt_bool a.[i, j] (quantile_1d (row 0 a j) q)
                   else Qlt_bool a.[i, j] (quantile_1d (column 0 a i) q)).
    { subst mask.
      assert (Hh : (np_less a (newaxis_col (quantile_axis0 a q))).?[i, j]
                   = Qlt_bool a.[i, j] (quantile_1d (column 0 a i) q)).
      { rewrite get_less_newaxis_col by congruence.
        unfold quantile_axis0. now rewrite nth_map_seq by congruence. }
      destruct (np_all_equal M (transpose 0 M)); simpl negb; cbv iota;
        [exact Hh |].
      unfold np_and, map2.
      destruct (shape_less_newaxis a (quantile_axis0 a q)) as (-> & -> & _);
        try congruence.
      rewrite get_tabulate by congruence. rewrite Hh. f_equal.
      rewrite get_less_newaxis_row by congruence.
      unfold quantile_axis1. now rewrite nth_map_seq by congruence. }
    destruct self_loops; simpl negb; cbv iota.
    + simpl andb. cbv iota. unfold assign_where.
      rewrite get_tabulate by congruence. rewrite Hm. reflexivity.
    + unfold fill_diagonal, assign_where. cbn [shape0 shape1 tabulate].
      rewrite get_tabulate by congruence. simpl andb.
      destruct (i =? j)%nat; [reflexivity |].
      rewrite get_tabulate by congruence. rewrite Hm. reflexivity.
Qed.

(** ** Counting the kept entries *)

Lemma length_filter_map {A B : Type} (p : B -> bool) (g : A -> B) (l : list A) :
  length (filter p (map g l)) = length (filter (fun x => p (g x)) l).
Proof.
  induction l as [| x l IH]; simpl; [reflexivity |].
  destruct (p (g x)); simpl; congruence.
Qed.

(** Counting the members of a duplicate-free list of indices below [n]. *)
Lemma length_filter_members (L : list nat) (n : nat) :
  NoDup L -> (forall x, In x L -> (x < n)%nat) ->
  length (filter (fun i => existsb (Nat.eqb i) L) (seq 0 n)) = length L.
Proof.
  intros Hnd Hlt. apply Permutation_length, NoDup_Permutation.
  - apply NoDup_filter, seq_NoDup.
  - exact Hnd.
  - intros x. rewrite filter_In, in_seq, existsb_exists. split.
    + intros (_ & y & Hy & E). apply Nat.eqb_eq in E. now subst.
    + intros Hx. split; [specialize (Hlt x Hx); lia |].
      exists x. split; [exact Hx | apply Nat.eqb_refl].
Qed.

Lemma slice_last_incl {A : Type} (m : nat) (l : list A) x :
  In x (slice_last m l) -> In x l.
Proof.
  unfold slice_last. intros H.
  rewrite <- (firstn_skipn (length l - m) l). apply in_or_app. now right.
Qed.

Lemma slice_last_NoDup {A : Type} (m : nat) (l : list A) :
  NoDup l -> NoDup (slice_last m l).
Proof.
  unfold slice_last. intros H.
  rewrite <- (firstn_skipn (length l - m) l) in H.
  eapply NoDup_app_remove_l, H.
Qed.

Lemma length_slice_last {A : Type} (m : nat) (l : list A) :
  (m <= length l)%nat -> length (slice_last m l) = m.
Proof. unfold slice_last. intros H. rewrite length_skipn. lia. Qed.

Section KeptRows.
Context {AS : ArgSort}.

Lemma length_argsort l : length (argsort l) = length l.
Proof. rewrite (Permutation_length (argsort_perm l)). apply length_seq. Qed.

Lemma kept_rows_NoDup m k i : NoDup (kept_rows m k i).
Proof.
  apply slice_last_NoDup.
  eapply Permutation_NoDup; [symmetry; apply argsort_perm | apply seq_NoDup].
Qed.

Lemma kept_rows_bound m k i x : In x (kept_rows m k i) -> (x < shape0 m)%nat.
Proof.
  intros H. apply slice_last_incl in H.
  apply (Permutation_in _ (argsort_perm _)) in H.
  apply in_seq in H. rewrite length_column in H. lia.
Qed.

Lemma length_kept_rows m k i :
  (0 <= k)%Z -> (k + 1 <= Z.of_nat (shape0 m))%Z ->
  length (kept_rows m k i) = Z.to_nat (k + 1).
Proof.
  intros H0 Hk. apply length_slice_last.
  rewrite length_argsort, length_column. lia.
Qed.

(** The rows kept in a column are those of largest magnitude: no
    dropped row has a larger key than a kept one. *)
Lemma kept_rows_largest m k i r r' :
  In r (kept_rows m k i) ->
  (r' < shape0 m)%nat -> ~ In r' (kept_rows m k i) ->
  m.[r', i] <= m.[r, i].
Proof.
  intros Hr Hr' Hout. unfold kept_rows, slice_last in *.
  set (l := column 0 m i) in *. set (s := argsort l) in *.
  set (c := (length s - Z.to_nat (k + 1))%nat) in *.
  assert (Hin : In r' (firstn c s)).
  { assert (H : In r' s).
    { apply (Permutation_in _ (Permutation_sym (argsort_perm l))).
      apply in_seq. subst l. rewrite length_column. lia. }
    rewrite <- (firstn_skipn c s) in H. apply in_app_or in H. tauto. }
  pose proof (argsort_sorted l) as Hs. fold s in Hs.
  rewrite <- (firstn_skipn c s) in Hs.
  assert (Hgen : forall (u v : list nat),
             StronglySorted (fun a b => nth a l 0 <= nth b l 0) (u ++ v) ->
             In r' u -> In r v -> nth r' l 0 <= nth r l 0).
  { clear. induction u as [| x u IH]; intros v Hs Hu Hv; [destruct Hu |].
    simpl in Hs. inversion Hs as [| ? ? Hs' Hx]; subst.
    destruct Hu as [-> | Hu].
    - rewrite Forall_forall in Hx. apply Hx, in_or_app. now right.
    - eapply IH; eassumption. }
  specialize (Hgen _ _ Hs Hin Hr).
  assert (Hrb : (r < shape0 m)%nat).
  { apply (kept_rows_bound m k i). unfold kept_rows, slice_last. exact Hr. }
  subst l. rewrite !nth_column in Hgen by assumption. exact Hgen.
Qed.
End KeptRows.

(** ** Quantiles of numerically equal lists *)

Lemma insert_value_Forall2 x x' s s' :
  x == x' -> Forall2 Qeq s s' ->
  Forall2 Qeq (insert_value x s) (insert_value x' s').
Proof.
  intros Hx Hs. induction Hs as [| y y' t t' Hy Ht IH]; simpl.
  - repeat constructor. exact Hx.
  - rewrite <- Hx, <- Hy. destruct (Qle_bool x y).
    + constructor; [exact Hx |]. constructor; assumption.
    + constructor; assumption.
Qed.

Lemma np_sort_Forall2 l l' : Forall2 Qeq l l' -> Forall2 Qeq (np_sort l) (np_sort l').
Proof.
  induction 1; simpl; [constructor |]. now apply insert_value_Forall2.
Qed.

Lemma nth_Forall2 l l' i : Forall2 Qeq l l' -> nth i l 0 == nth i l' 0.
Proof.
  intros H. revert i. induction H; intros [| i]; simpl; try reflexivity; auto.
Qed.

Lemma quantile_1d_Forall2 l l' q :
  Forall2 Qeq l l' -> quantile_1d l q == quantile_1d l' q.
Proof.
  intros H. unfold quantile_1d.
  rewrite <- (Forall2_length H).
  pose proof (np_sort_Forall2 _ _ H) as Hs.
  rewrite (nth_Forall2 _ _ (Z.to_nat (Qfloor (q * inject_Z (Z.of_nat (length l - 1))))) Hs).
  rewrite (nth_Forall2 _ _ (Nat.min (Z.to_nat (Qfloor (q * inject_Z (Z.of_nat (length l - 1)))) + 1)
                             (length l - 1)) Hs).
  reflexivity.
Qed.

Lemma Forall2_map_seq (f g : nat -> Q) (L : list nat) :
  (forall x, In x L -> f x == g x) -> Forall2 Qeq (map f L) (map g L).
Proof.
  induction L as [| x L IH]; simpl; intros H; constructor; auto.
Qed.

(** The input equals its transpose: [is_directed] is false. *)
Lemma np_all_equal_transpose (M : matrix) :
  shape0 M = shape1 M ->
  (forall i j, (i < shape0 M)%nat -> (j < shape0 M)%nat -> M.[i, j] == M.[j, i]) ->
  np_all_equal M (transpose 0 M) = true.
Proof.
  intros Hsq Hsym. unfold np_all_equal. apply forallb_forall.
  intros x Hx. apply in_ravel in Hx. destruct Hx as (i & j & Hi & Hj & ->).
  unfold map2 in *. cbn [shape0 shape1 tabulate] in Hi, Hj.
  rewrite get_tabulate by assumption.
  unfold transpose. rewrite get_tabulate by lia.
  apply Qeq_bool_iff, Hsym; lia.
Qed.

(** In a symmetric matrix the quantile of column [i] of |M| is the
    quantile of row [i]. *)
Lemma quantile_column_row (M : matrix) q i :
  shape0 M = shape1 M ->
  (forall i j, (i < shape0 M)%nat -> (j < shape0 M)%nat -> M.[i, j] == M.[j, i]) ->
  (i < shape0 M)%nat ->
  quantile_1d (column 0 (np_abs M) i) q == quantile_1d (row 0 (np_abs M) i) q.
Proof.
  intros Hsq Hsym Hi. apply quantile_1d_Forall2.
  unfold column, row. cbn [np_abs map1 tabulate shape0 shape1]. rewrite <- Hsq.
  apply Forall2_map_seq. intros r Hr. apply in_seq in Hr.
  fold (map1 0 Qabs M). fold (np_abs M).
  rewrite !get_np_abs by lia. rewrite (Hsym r i) by lia. reflexivity.
Qed.

(** ** The kNN builders *)

Lemma undirected_entry_zero_diagonal (adj : matrix) i :
  adj.[i, i] = 0 -> undirected_entry adj i i == 0.
Proof.
  intros H. unfold undirected_entry. rewrite H.
  destruct (length (np_unique (ravel 0%Q adj)) =? 2)%nat; reflexivity.
Qed.

Section Builders.
Context {AS : ArgSort}.

(** C2.  On an n x n matrix without zero entries and for 1 <= k <= n-1,
    [knn_graph] with selfloops=True and symmetric=False returns a matrix
    each of whose columns has exactly k+1 nonzero entries. *)
Theorem knn_graph_column_degree (M : matrix) (k : Z) :
  shape0 M = shape1 M ->
  (forall i j, (i < shape0 M)%nat -> (j < shape0 M)%nat -> ~ M.[i, j] == 0) ->
  (1 <= k <= Z.of_nat (shape0 M) - 1)%Z ->
  exists out, knn_graph M k true false = Return out /\
    forall j, (j < shape0 M)%nat ->
      Z.of_nat (count_nonzero (column 0 out j)) = (k + 1)%Z.
Proof.
  intros Hsq Hnz Hk.
  destruct (knn_graph_returns M k true false Hsq Hk)
    as (adj & _ & H0 & _ & Hent & ->).
  exists adj. split; [reflexivity |]. intros j Hj.
  unfold count_nonzero, column. rewrite length_filter_map, H0.
  rewrite (filter_ext_in _ (fun i => existsb (Nat.eqb i) (kept_rows (np_abs M) k j))).
  - rewrite length_filter_members.
    + rewrite length_kept_rows; simpl; lia.
    + apply kept_rows_NoDup.
    + intros x Hx. apply kept_rows_bound in Hx. exact Hx.
  - intros i Hi. apply in_seq in Hi.
    rewrite Hent by lia. unfold knn_entry. simpl andb. cbv iota.
    rewrite get_knn_mask by lia.
    destruct (existsb (Nat.eqb i) (kept_rows (np_abs M) k j)).
    + unfold Qneq_bool. apply negb_true_iff.
      destruct (Qeq_bool M.[i, j] 0) eqn:E; [| reflexivity].
      apply Qeq_bool_iff in E. exfalso. apply (Hnz i j); [lia | lia | exact E].
    + reflexivity.
Qed.

(** C4.  With symmetric=False, every entry of the matrix [knn_graph]
    returns is 0 or the entry of the input at the same place, sign and
    magnitude unchanged: the entry survives when its row is among the
    rows selected for its column on the matrix of absolute values (and,
    without self-loops, it is off the diagonal). *)
Theorem knn_graph_keeps_original_entries (M : matrix) (k : Z) (selfloops : bool) :
  shape0 M = shape1 M ->
  (1 <= k <= Z.of_nat (shape0 M) - 1)%Z ->
  exists out, knn_graph M k selfloops false = Return out /\
    shape0 out = shape0 M /\ shape1 out = shape1 M /\
    forall i j, (i < shape0 M)%nat -> (j < shape0 M)%nat ->
      (out.[i, j] = 0 \/ out.[i, j] = M.[i, j]) /\
      out.[i, j] =
        if negb selfloops && (i =? j)%nat then 0
        else if existsb (Nat.eqb i) (kept_rows (np_abs M) k j) then M.[i, j]
        else 0.
Proof.
  intros Hsq Hk.
  destruct (knn_graph_returns M k selfloops false Hsq Hk)
    as (adj & _ & H0 & H1 & Hent & ->).
  exists adj. split; [reflexivity |]. split; [exact H0 |]. split; [congruence |].
  intros i j Hi Hj. rewrite Hent by assumption. unfold knn_entry.
  rewrite get_knn_mask by assumption.
  destruct (negb selfloops && (i =? j)%nat);
    [| destruct (existsb (Nat.eqb i) (kept_rows (np_abs M) k j))]; auto.
Qed.

(** C7.  With selfloops=False both builders return a matrix with a
    zero diagonal, for either value of the symmetric flag. *)
Theorem selfloops_false_zero_diagonal (M : matrix) (k : Z) (symmetric : bool) :
  shape0 M = shape1 M ->
  (1 <= k <= Z.of_nat (shape0 M) - 1)%Z ->
  (exists out, knn_graph M k false symmetric = Return out /\
     forall i, (i < shape0 M)%nat -> out.[i, i] == 0) /\
  (exists out, knn_graph_quantile M false k symmetric = Return out /\
     forall i, (i < shape0 M)%nat -> out.[i, i] == 0).
Proof.
  intros Hsq Hk.
  assert (Hdiag : forall adj : matrix,
             shape0 adj = shape0 M -> shape1 adj = shape0 M ->
             (forall i, (i < shape0 M)%nat -> adj.[i, i] = 0) ->
             exists out, (if symmetric then make_undirected adj else Return adj)
                         = Return out /\
               forall i, (i < shape0 M)%nat -> out.[i, i] == 0).
  { intros adj H0 H1 Hz. destruct symmetric.
    - destruct (make_undirected_returns adj) as (S & HS & _ & _ & _ & Hent);
        [congruence |].
      exists S. split; [exact HS |]. intros i Hi.
      rewrite Hent by congruence.
      apply undirected_entry_zero_diagonal, Hz, Hi.
    - exists adj. split; [reflexivity |]. intros i Hi.
      rewrite Hz by exact Hi. reflexivity. }
  split.
  - destruct (knn_graph_returns M k false symmetric Hsq Hk)
      as (adj & _ & H0 & H1 & Hent & ->).
    apply Hdiag; try assumption. intros i Hi.
    rewrite Hent by assumption. unfold knn_entry.
    now rewrite Nat.eqb_refl.
  - destruct (knn_graph_quantile_returns M false k symmetric Hsq Hk)
      as (adj & _ & H0 & H1 & Hent & ->).
    apply Hdiag; try assumption. intros i Hi.
    rewrite Hent by assumption. unfold quantile_entry.
    now rewrite Nat.eqb_refl.
Qed.

(** C8.  On an n x n matrix both builders raise the range error when
    k <= 0 or k >= n, and return a matrix when 1 <= k <= n-1. *)
Theorem builders_range_check (M : matrix) (k : Z) (selfloops symmetric : bool) :
  shape0 M = shape1 M ->
  ((k <= 0 \/ Z.of_nat (shape0 M) <= k)%Z ->
     knn_graph M k selfloops symmetric = Raise RangeError /\
     knn_graph_quantile M selfloops k symmetric = Raise RangeError) /\
  ((1 <= k <= Z.of_nat (shape0 M) - 1)%Z ->
     (exists out, knn_graph M k selfloops symmetric = Return out) /\
     (exists out, knn_graph_quantile M selfloops k symmetric = Return out)).
Proof.
  intros Hsq. split.
  - intros Hk. unfold knn_graph, knn_graph_quantile.
    rewrite <- Hsq, Nat.eqb_refl. simpl negb. cbv iota.
    assert (G : ((k <=? 0)%Z || (Z.of_nat (shape0 M) <=? k)%Z) = true).
    { apply orb_true_iff. destruct Hk; [left | right]; now apply Z.leb_le. }
    rewrite G. split; reflexivity.
  - intros Hk.
    assert (Hret : forall adj : matrix,
               shape0 adj = shape0 M -> shape1 adj = shape0 M ->
               exists out, (if symmetric then make_undirected adj else Return adj)
                           = Return out).
    { intros adj H0 H1. destruct symmetric; [| eauto].
      destruct (make_undirected_returns adj) as (S & HS & _); [congruence | eauto]. }
    split.
    + destruct (knn_graph_returns M k selfloops symmetric Hsq Hk)
        as (adj & _ & H0 & H1 & _ & ->). now apply Hret.
    + destruct (knn_graph_quantile_returns M selfloops k symmetric Hsq Hk)
        as (adj & _ & H0 & H1 & _ & ->). now apply Hret.
Qed.

(** C9.  On a matrix whose numbers of rows and columns differ, the
    symmetrizer and both builders raise the shape error. *)
Theorem non_square_rejected (M : matrix) (k : Z) (selfloops symmetric : bool) :
  shape0 M <> shape1 M ->
  make_undirected M = Raise ShapeError /\
  knn_graph M k selfloops symmetric = Raise ShapeError /\
  knn_graph_quantile M selfloops k symmetric = Raise ShapeError.
Proof.
  intros Hns. apply Nat.eqb_neq in Hns.
  unfold make_undirected, knn_graph, knn_graph_quantile.
  rewrite Hns. repeat split; reflexivity.
Qed.
End Builders.

(** C10.  With symmetric=False, every entry of the matrix
    [knn_graph_quantile] returns is 0 or the absolute value of the input
    entry at the same place; no entry is negative. *)
Theorem knn_graph_quantile_absolute_entries (M : matrix) (self_loops : bool) (k : Z) :
  shape0 M = shape1 M ->
  (1 <= k <= Z.of_nat (shape0 M) - 1)%Z ->
  exists out, knn_graph_quantile M self_loops k false = Return out /\
    forall i j, (i < shape0 M)%nat -> (j < shape0 M)%nat ->
      (out.[i, j] = 0 \/ out.[i, j] = Qabs M.[i, j]) /\ 0 <= out.[i, j].
Proof.
  intros Hsq Hk.
  destruct (knn_graph_quantile_returns M self_loops k false Hsq Hk)
    as (adj & _ & H0 & H1 & Hent & ->).
  exists adj. split; [reflexivity |]. intros i j Hi Hj.
  rewrite Hent by assumption. unfold quantile_entry. cbv zeta.
  rewrite get_np_abs by congruence.
  destruct (negb self_loops && (i =? j)%nat); [split; [now left | apply Qle_refl] |].
  match goal with |- context [if ?c then 0 else _] => destruct c end.
  - split; [now left | apply Qle_refl].
  - split; [now right | apply Qabs_nonneg].
Qed.

Lemma Qlt_bool_iff (x y : Q) : Qlt_bool x y = true <-> x < y.
Proof.
  unfold Qlt_bool. rewrite negb_true_iff. split.
  - intros H. apply Qnot_le_lt. intros L. apply Qle_bool_iff in L. congruence.
  - intros H. destruct (Qle_bool y x) eqn:E; [| reflexivity].
    apply Qle_bool_iff in E. exfalso. apply (Qlt_not_le _ _ H E).
Qed.

(** C3, as the code has it.  On a square matrix equal to its transpose,
    [knn_graph_quantile] with self_loops=True and symmetric=False zeroes
    exactly the entries (i, j) whose absolute value is strictly below the
    quantile of column i of |M| (which, M being symmetric, is the
    quantile of row i, the entry's own row) and returns the absolute
    value of every other entry. *)
Theorem knn_graph_quantile_row_threshold (M : matrix) (k : Z) :
  shape0 M = shape1 M ->
  (forall i j, (i < shape0 M)%nat -> (j < shape0 M)%nat -> M.[i, j] == M.[j, i]) ->
  (1 <= k <= Z.of_nat (shape0 M) - 1)%Z ->
  exists out, knn_graph_quantile M true k false = Return out /\
    forall i j, (i < shape0 M)%nat -> (j < shape0 M)%nat ->
      let threshold := quantile_1d (column 0 (np_abs M) i) (knn_level (shape0 M) k) in
      threshold == quantile_1d (row 0 (np_abs M) i) (knn_level (shape0 M) k) /\
      (Qabs M.[i, j] < threshold -> out.[i, j] = 0) /\
      (~ Qabs M.[i, j] < threshold -> out.[i, j] = Qabs M.[i, j]).
Proof.
  intros Hsq Hsym Hk.
  destruct (knn_graph_quantile_returns M true k false Hsq Hk)
    as (adj & _ & H0 & H1 & Hent & ->).
  exists adj. split; [reflexivity |]. intros i j Hi Hj threshold.
  split; [apply quantile_column_row; assumption |].
  rewrite Hent by assumption. unfold quantile_entry. cbv zeta.
  rewrite np_all_equal_transpose by assumption.
  simpl negb. simpl andb. cbv iota.
  rewrite get_np_abs by congruence. fold threshold.
  destruct (Qlt_bool (Qabs M.[i, j]) threshold) eqn:E.
  - split; [reflexivity |]. intros Hn. apply Qlt_bool_iff in E. contradiction.
  - split; [| reflexivity]. intros Hlt. apply Qlt_bool_iff in Hlt. congruence.
Qed.

(** Case analysis on an index bounded by a literal. *)
Ltac index_cases i :=
  repeat (destruct i as [| i]; [| try (exfalso; simpl in *; lia)]).

(** C3, as the specification words it, fails: on [symmetric3] with k = 1
    the entry (0, 1), of absolute value 2, is zeroed although the
    quantile of its own column 1 is 1; the threshold it met is 22/3, the
    quantile of column 0. *)
Lemma knn_graph_quantile_own_column_counterexample :
  shape0 symmetric3 = shape1 symmetric3 /\
  (forall i j, (i < 3)%nat -> (j < 3)%nat -> symmetric3.[i, j] == symmetric3.[j, i]) /\
  exists out, knn_graph_quantile symmetric3 true 1 false = Return out /\
    ~ (forall i j, (i < 3)%nat -> (j < 3)%nat ->
         (out.[i, j] == 0 <->
          Qabs symmetric3.[i, j]
          < quantile_1d (column 0 (np_abs symmetric3) j) (knn_level 3 1))).
Proof.
  split; [reflexivity |]. split.
  - intros i j Hi Hj. index_cases i; index_cases j; reflexivity.
  - eexists. split; [vm_compute; reflexivity |].
    intros H. destruct (H 0%nat 1%nat) as [H01 _]; [lia | lia |].
    assert (Hlt : Qabs symmetric3.[0, 1]
                  < quantile_1d (column 0 (np_abs symmetric3) 1) (knn_level 3 1))
      by (apply H01; reflexivity).
    vm_compute in Hlt. discriminate Hlt.
Qed.

(** ** Graphs of symmetric matrices *)

Lemma update_nth_map_seq {A : Type} (F : nat -> A) (f : A -> A) (u s n : nat) :
  update_nth u f (map F (seq s n))
  = map (fun x => if (x =? s + u)%nat then f (F x) else F x) (seq s n).
Proof.
  revert u s. induction n as [| n IH]; intros u s; simpl.
  - destruct u; reflexivity.
  - destruct u as [| u]; simpl.
    + rewrite Nat.add_0_r, Nat.eqb_refl. f_equal.
      apply map_ext_in. intros x Hx. apply in_seq in Hx.
      destruct (Nat.eqb_spec x s); [lia | reflexivity].
    + destruct (Nat.eqb_spec s (s + S u)); [lia |]. f_equal.
      rewrite IH. apply map_ext. intros x.
      now replace (S s + u)%nat with (s + S u)%nat by lia.
Qed.

Lemma assoc_set_present (h : nat -> Q) (L : list nat) (v : nat) :
  In v L ->
  assoc_set v (h v) (map (fun x => (x, h x)) L) = map (fun x => (x, h x)) L.
Proof.
  induction L as [| x L IH]; simpl; [tauto |].
  intros H. destruct (Nat.eqb_spec x v) as [-> | Hne]; [reflexivity |].
  f_equal. apply IH. destruct H; [contradiction | assumption].
Qed.

Lemma assoc_set_absent (h : nat -> Q) (L : list nat) (v : nat) (w : Q) :
  ~ In v L ->
  assoc_set v w (map (fun x => (x, h x)) L) = map (fun x => (x, h x)) L ++ [(v, w)].
Proof.
  induction L as [| x L IH]; simpl; [reflexivity |].
  intros H. destruct (Nat.eqb_spec x v) as [-> | Hne]; [tauto |].
  f_equal. apply IH. tauto.
Qed.

Section SymmetricGraph.
Variable a : matrix.
Variable n : nat.
Hypothesis Hsym : forall i j, (i < n)%nat -> (j < n)%nat -> a.[i, j] = a.[j, i].

Definition nz (u v : nat) : bool := Qneq_bool a.[u, v] 0.

(** The neighbours of [u] among the nodes below [b], ascending. *)
Definition row_prefix (u b : nat) : list (nat * Q) :=
  map (fun v => (v, a.[u, v])) (filter (nz u) (seq 0 b)).

(** How far the adjacency of [u] has grown when the rows below [r] and
    the columns below [c] of row [r] have been added. *)
Definition bound (r c u : nat) : nat :=
  if (u <? r)%nat then n
  else if (u =? r)%nat then Nat.max r c
  else if (u <? c)%nat then S r else r.

Definition partial_graph (r c : nat) : Graph :=
  map (fun u => row_prefix u (bound r c u)) (seq 0 n).

Lemma nz_sym u v : (u < n)%nat -> (v < n)%nat -> nz u v = nz v u.
Proof. intros Hu Hv. unfold nz. now rewrite Hsym. Qed.

Lemma row_prefix_S u b :
  row_prefix u (S b)
  = row_prefix u b ++ (if nz u b then [(b, a.[u, b])] else []).
Proof.
  unfold row_prefix. rewrite seq_S, filter_app, map_app. simpl.
  now destruct (nz u b).
Qed.

Lemma assoc_set_row_present u b v :
  (v < b)%nat -> nz u v = true ->
  assoc_set v a.[u, v] (row_prefix u b) = row_prefix u b.
Proof.
  intros Hv Hnz. unfold row_prefix.
  apply (assoc_set_present (fun v => a.[u, v])).
  apply filter_In. split; [apply in_seq; lia | exact Hnz].
Qed.

Lemma assoc_set_row_append u b :
  nz u b = true ->
  assoc_set b a.[u, b] (row_prefix u b) = row_prefix u (S b).
Proof.
  intros Hnz. rewrite row_prefix_S, Hnz. unfold row_prefix.
  apply (assoc_set_absent (fun v => a.[u, v])).
  rewrite filter_In, in_seq. lia.
Qed.

(** Deciding the comparisons inside [bound]. *)
Ltac bound_cases :=
  unfold bound;
  repeat match goal with
    | |- context [(?a <? ?b)%nat] => destruct (Nat.ltb_spec a b); try lia
    | |- context [(?a =? ?b)%nat] => destruct (Nat.eqb_spec a b); try lia
    end;
  try lia.

Lemma add_edge_partial r c :
  (r < n)%nat -> (c < n)%nat -> nz r c = true ->
  add_edge (partial_graph r c) r c a.[r, c] = partial_graph r (S c).
Proof.
  intros Hr Hc Hnz. unfold add_edge, partial_graph.
  rewrite update_nth_map_seq, update_nth_map_seq. simpl Nat.add.
  apply map_ext_in. intros u Hu. apply in_seq in Hu.
  assert (Hnz' : nz c r = true) by (rewrite nz_sym; assumption).
  destruct (Nat.eqb_spec u c) as [-> | Huc];
    [destruct (Nat.eqb_spec c r) as [-> | Ncr] | destruct (Nat.eqb_spec u r) as [-> | Hur]].
  - (* the self-loop *)
    replace (bound r r r) with r by (bound_cases).
    replace (bound r (S r) r) with (S r) by (bound_cases).
    rewrite assoc_set_row_append by assumption.
    apply assoc_set_row_present; [lia | assumption].
  - (* the adjacency of the column node *)
    rewrite (Hsym r c) by assumption.
    destruct (Nat.lt_ge_cases c r) as [Hlt | Hge].
    + replace (bound r c c) with n by (bound_cases).
      replace (bound r (S c) c) with n by (bound_cases).
      apply assoc_set_row_present; assumption.
    + replace (bound r c c) with r by (bound_cases).
      replace (bound r (S c) c) with (S r) by (bound_cases).
      apply assoc_set_row_append; assumption.
  - (* the adjacency of the row node *)
    destruct (Nat.lt_ge_cases c r) as [Hlt | Hge].
    + replace (bound r c r) with r by (bound_cases).
      replace (bound r (S c) r) with r by (bound_cases).
      apply assoc_set_row_present; assumption.
    + replace (bound r c r) with c by (bound_cases).
      replace (bound r (S c) r) with (S c) by (bound_cases).
      apply assoc_set_row_append; assumption.
  - (* any other node *)
    f_equal. bound_cases.
Qed.

Lemma skip_partial r c :
  (r < n)%nat -> (c < n)%nat -> nz r c = false ->
  partial_graph r (S c) = partial_graph r c.
Proof.
  intros Hr Hc Hnz. unfold partial_graph.
  apply map_ext_in. intros u Hu. apply in_seq in Hu.
  assert (Hnz' : nz c r = false) by (rewrite nz_sym; assumption).
  destruct (Nat.eqb_spec u r) as [-> | Hur];
    [| destruct (Nat.eqb_spec u c) as [-> | Huc]].
  - destruct (Nat.lt_ge_cases c r) as [Hlt | Hge].
    + f_equal. bound_cases.
    + replace (bound r c r) with c by (bound_cases).
      replace (bound r (S c) r) with (S c) by (bound_cases).
      rewrite row_prefix_S, Hnz. apply app_nil_r.
  - destruct (Nat.lt_ge_cases c r) as [Hlt | Hge].
    + f_equal. bound_cases.
    + replace (bound r c c) with r by (bound_cases).
      replace (bound r (S c) c) with (S r) by (bound_cases).
      rewrite row_prefix_S, Hnz'. apply app_nil_r.
  - f_equal. bound_cases.
Qed.

(** The step of the fold in [from_numpy_array]. *)
Definition add_entry (g : Graph) (p : nat * nat) : Graph :=
  add_edge g (fst p) (snd p) a.[fst p, snd p].

(** The nonzero positions of row [r] among the given columns. *)
Definition row_entries (r : nat) (cols : list nat) : list (nat * nat) :=
  map (pair r) (filter (nz r) cols).

Lemma fold_row r len : forall c0,
  (r < n)%nat -> (c0 + len <= n)%nat ->
  fold_left add_entry (row_entries r (seq c0 len)) (partial_graph r c0)
  = partial_graph r (c0 + len).
Proof.
  unfold row_entries.
  induction len as [| len IH]; intros c0 Hr Hc; simpl.
  - now rewrite Nat.add_0_r.
  - destruct (nz r c0) eqn:E; simpl.
    + unfold add_entry at 2. simpl fst. simpl snd.
      rewrite add_edge_partial by (assumption || lia).
      rewrite IH by lia. f_equal. lia.
    + rewrite <- (skip_partial r c0) by (assumption || lia).
      rewrite IH by lia. f_equal. lia.
Qed.

Lemma partial_graph_next r :
  (r < n)%nat -> partial_graph r n = partial_graph (S r) 0.
Proof.
  intros Hr. unfold partial_graph.
  apply map_ext_in. intros u Hu. apply in_seq in Hu.
  f_equal. bound_cases.
Qed.

Lemma fold_rows len : forall r0,
  (r0 + len <= n)%nat ->
  fold_left add_entry (flat_map (fun r => row_entries r (seq 0 n)) (seq r0 len))
            (partial_graph r0 0)
  = partial_graph (r0 + len) 0.
Proof.
  induction len as [| len IH]; intros r0 Hr; simpl.
  - now rewrite Nat.add_0_r.
  - rewrite fold_left_app, fold_row by lia. simpl Nat.add.
    rewrite partial_graph_next by lia.
    rewrite IH by lia. f_equal. lia.
Qed.

Lemma partial_graph_start : partial_graph 0 0 = repeat [] n.
Proof.
  unfold partial_graph.
  assert (H : forall L, map (fun u => row_prefix u (bound 0 0 u)) L
                        = repeat [] (length L)).
  { induction L as [| u L IH]; simpl; [reflexivity |].
    rewrite IH. f_equal.
    replace (bound 0 0 u) with 0%nat by (bound_cases). reflexivity. }
  rewrite H. now rewrite length_seq.
Qed.

Lemma directed_edges_partial_graph :
  directed_edges (partial_graph n 0)
  = flat_map (fun u => map (fun p => (p, a.[fst p, snd p])) (row_entries u (seq 0 n)))
             (seq 0 n).
Proof.
  unfold directed_edges, partial_graph. rewrite length_map, length_seq.
  assert (H : forall L, (forall u, In u L -> (u < n)%nat) ->
    flat_map (fun u => map (fun vw => (u, fst vw, snd vw))
                (nth u (map (fun u => row_prefix u (bound n 0 u)) (seq 0 n)) [])) L
    = flat_map (fun u => map (fun p => (p, a.[fst p, snd p])) (row_entries u (seq 0 n))) L).
  { induction L as [| u L IH]; intros HL; simpl; [reflexivity |].
    rewrite IH by (intros; apply HL; now right). f_equal.
    assert (Hu : (u < n)%nat) by (apply HL; now left).
    rewrite nth_map_seq by exact Hu.
    replace (bound n 0 u) with n by (bound_cases).
    unfold row_prefix, row_entries. rewrite !map_map. reflexivity. }
  apply H. intros u Hu. apply in_seq in Hu. lia.
Qed.
End SymmetricGraph.

Lemma filter_list_prod (P : nat * nat -> bool) (L L' : list nat) :
  filter P (list_prod L L')
  = flat_map (fun r => map (pair r) (filter (fun c => P (r, c)) L')) L.
Proof.
  induction L as [| r L IH]; simpl; [reflexivity |].
  rewrite filter_app, IH. f_equal. clear IH.
  induction L' as [| c L' IH']; simpl; [reflexivity |].
  destruct (P (r, c)); simpl; now rewrite IH'.
Qed.

Lemma nonzero_rows (S : matrix) :
  nonzero S
  = flat_map (fun r => row_entries S r (seq 0 (shape1 S))) (seq 0 (shape0 S)).
Proof. unfold nonzero. now rewrite filter_list_prod. Qed.

Lemma edges_of_rows (S : matrix) (cols R : list nat) :
  let es := flat_map (fun u => map (fun p => (p, S.[fst p, snd p]))
                                   (row_entries S u cols)) R in
  map (fun e => (fst (fst e), snd (fst e))) es
  = flat_map (fun r => row_entries S r cols) R /\
  map (fun e => snd e) es
  = map (fun p => S.[fst p, snd p]) (flat_map (fun r => row_entries S r cols) R).
Proof.
  cbv zeta. induction R as [| u R [IH1 IH2]]; simpl; [split; reflexivity |].
  rewrite !map_app, IH1, IH2, !map_map. simpl. split; [| reflexivity].
  f_equal. rewrite <- (map_id (row_entries S u cols)) at 2.
  apply map_ext. now intros [a b].
Qed.

(** The graph object of a symmetric matrix lists its nonzero entries in
    row-major order, each with its value. *)
Lemma graph_of_symmetric (S : matrix) :
  shape0 S = shape1 S ->
  (forall i j, (i < shape0 S)%nat -> (j < shape0 S)%nat -> S.[i, j] = S.[j, i]) ->
  let data := from_networkx (from_numpy_array S) in
  edge_index data = nonzero S /\
  weight data = map (fun p => S.[fst p, snd p]) (nonzero S) /\
  num_nodes data = shape0 S.
Proof.
  intros Hsq Hsym.
  assert (G : from_numpy_array S = partial_graph S (shape0 S) (shape0 S) 0).
  { unfold from_numpy_array. rewrite nonzero_rows, <- Hsq.
    rewrite <- (partial_graph_start S (shape0 S)).
    apply (fold_rows S (shape0 S) Hsym (shape0 S) 0%nat). lia. }
  cbv zeta. unfold from_networkx. cbn [edge_index weight num_nodes].
  rewrite G, (directed_edges_partial_graph S (shape0 S)).
  rewrite nonzero_rows, <- Hsq.
  destruct (edges_of_rows S (seq 0 (shape0 S)) (seq 0 (shape0 S))) as [E1 E2].
  split; [exact E1 | split; [exact E2 |]].
  unfold partial_graph. now rewrite length_map, length_seq.
Qed.

(** ** [make_group_graph] *)

Lemma get_mean_axis0 (first : matrix) (connectomes : list matrix) i j :
  (i < shape0 first)%nat -> (j < shape1 first)%nat ->
  (mean_axis0 first connectomes).[i, j]
  = fold_right Qplus 0 (map (fun c => c.[i, j]) connectomes)
    / inject_Z (Z.of_nat (length connectomes)).
Proof. intros Hi Hj. unfold mean_axis0. now rewrite get_tabulate. Qed.

Section GroupFacts.
Context {AS : ArgSort}.

(** X15.  For a non-empty collection of connectomes of one shape whose
    first element is square and a valid k, [make_group_graph] takes the
    element-wise mean, passes it through [knn_graph] with the given flags
    and returns the graph object of the resulting matrix.  Whenever that
    matrix equals its transpose, which symmetric=True ensures, the edge
    index lists exactly its nonzero entries as (row, col) pairs in
    row-major order and the weights are the entries at those places, in
    the same order. *)
Theorem make_group_graph_of_symmetric (first : matrix) (rest : list matrix)
    (k : Z) (selfloops symmetric : bool) :
  (forall c, In c (first :: rest) ->
     shape0 c = shape0 first /\ shape1 c = shape1 first) ->
  shape0 first = shape1 first ->
  (1 <= k <= Z.of_nat (shape0 first) - 1)%Z ->
  let connectomes := first :: rest in
  let n := shape0 first in
  let avg_conn := mean_axis0 first connectomes in
  exists avg_conn_k,
    shape0 avg_conn = n /\ shape1 avg_conn = n /\
    (forall i j, (i < n)%nat -> (j < n)%nat ->
       avg_conn.[i, j]
       = fold_right Qplus 0 (map (fun c => c.[i, j]) connectomes)
         / inject_Z (Z.of_nat (length connectomes))) /\
    knn_graph avg_conn k selfloops symmetric = Return avg_conn_k /\
    make_group_graph connectomes k selfloops symmetric
    = Return (from_networkx (from_numpy_array avg_conn_k)) /\
    (symmetric = true ->
       forall i j, (i < n)%nat -> (j < n)%nat ->
         avg_conn_k.[i, j] = avg_conn_k.[j, i]) /\
    ((forall i j, (i < n)%nat -> (j < n)%nat ->
        avg_conn_k.[i, j] = avg_conn_k.[j, i]) ->
     exists data,
       make_group_graph connectomes k selfloops symmetric = Return data /\
       edge_index data = nonzero avg_conn_k /\
       weight data = map (fun p => avg_conn_k.[fst p, snd p]) (nonzero avg_conn_k)).
Proof.
  intros Hshape Hsq Hk. cbv zeta.
  set (connectomes := first :: rest).
  set (avg := mean_axis0 first connectomes).
  remember (shape0 first) as n eqn:Hn.
  assert (A0 : shape0 avg = n) by (subst n; reflexivity).
  assert (A1 : shape1 avg = n) by (subst n; simpl; congruence).
  destruct (knn_graph_returns avg k selfloops symmetric) as
    (adj & _ & H0 & H1 & _ & Hknn); [congruence | rewrite A0; exact Hk |].
  assert (Hout : exists out, knn_graph avg k selfloops symmetric = Return out /\
            shape0 out = n /\ shape1 out = n /\
            (symmetric = true ->
               forall i j, (i < n)%nat -> (j < n)%nat -> out.[i, j] = out.[j, i])).
  { rewrite Hknn. destruct symmetric.
    - destruct (make_undirected_returns adj) as (S & HS & _ & S0 & S1 & Hent);
        [congruence |].
      exists S. split; [exact HS |]. split; [congruence |]. split; [congruence |].
      intros _ i j Hi Hj. rewrite !Hent by congruence.
      apply undirected_entry_sym.
    - exists adj. split; [reflexivity |]. split; [congruence |].
      split; [congruence | discriminate]. }
  destruct Hout as (out & Hret & O0 & O1 & Hsymm).
  assert (Hgroup : make_group_graph connectomes k selfloops symmetric
                   = Return (from_networkx (from_numpy_array out))).
  { unfold make_group_graph, connectomes.
    rewrite <- Hsq, Hn, Nat.eqb_refl. simpl negb. cbv iota.
    fold connectomes. fold avg. rewrite Hret. reflexivity. }
  exists out. split; [exact A0 |]. split; [exact A1 |].
  split; [intros i j Hi Hj; apply get_mean_axis0; [rewrite <- Hn | rewrite <- Hsq]; assumption |].
  split; [exact Hret |]. split; [exact Hgroup |]. split; [exact Hsymm |].
  intros Hs. eexists. split; [exact Hgroup |].
  destruct (graph_of_symmetric out) as (E1 & E2 & _);
    [congruence | rewrite O0; exact Hs |].
  split; [exact E1 | exact E2].
Qed.
End GroupFacts.

(** C6.  The claim fails on the code with symmetric=False.  On the
    single connectome [signed3] with k = 1, selfloops=False and
    symmetric=False the kNN matrix is [[0,0,0],[-2,0,2],[3,-3,0]]: its
    nonzero entries are (1,0), (1,2), (2,0), (2,1) with the values -2, 2,
    3, -3.  The graph object [make_group_graph] returns has instead the
    six edges (0,1), (0,2), (1,0), (1,2), (2,1), (2,0) with the weights
    -2, 3, -2, -3, -3, 3: the edges (0,1) and (0,2) are not entries of
    the matrix, and the edge (1,2) carries -3 where the matrix holds 2.
    The matrix is read into an undirected graph, so the direction the
    symmetric flag asked to keep is lost. *)
Theorem make_group_graph_directed_divergence :
  exists avg_conn_k data,
    knn_graph (mean_axis0 signed3 [signed3]) 1 false false = Return avg_conn_k /\
    make_group_graph [signed3] 1 false false = Return data /\
    map (map Qred) (Array.data avg_conn_k) = [[0; 0; 0]; [-2; 0; 2]; [3; -3; 0]] /\
    nonzero avg_conn_k = [(1, 0); (1, 2); (2, 0); (2, 1)]%nat /\
    map (fun p => Qred avg_conn_k.[fst p, snd p]) (nonzero avg_conn_k)
    = [-2; 2; 3; -3] /\
    edge_index data = [(0, 1); (0, 2); (1, 0); (1, 2); (2, 1); (2, 0)]%nat /\
    map Qred (weight data) = [-2; 3; -2; -3; -3; 3] /\
    edge_index data <> nonzero avg_conn_k /\
    ~ Forall2 Qeq (weight data)
        (map (fun p => avg_conn_k.[fst p, snd p]) (nonzero avg_conn_k)).
Proof.
  eexists. eexists.
  split; [vm_compute; reflexivity |].
  split; [vm_compute; reflexivity |].
  split; [vm_compute; reflexivity |].
  split; [vm_compute; reflexivity |].
  split; [vm_compute; reflexivity |].
  split; [vm_compute; reflexivity |].
  split; [vm_compute; reflexivity |].
  split; [vm_compute; discriminate |].
  intros H. apply Forall2_length in H. vm_compute in H. discriminate H.
Qed.

(** ** Evaluations *)

(** The rows of a returned matrix, fractions reduced. *)
Definition returned_rows (r : result matrix) : option (list (list Q)) :=
  match r with
  | Return a => Some (map (map Qred) (data a))
  | Raise _ => None
  end.

Example make_undirected_binary4 :
  returned_rows (make_undirected binary4)
  = Some [[0; 1; 0; 1]; [1; 0; 1; 0]; [0; 1; 0; 1]; [1; 0; 1; 0]].
Proof. reflexivity. Qed.

Example make_undirected_signed3 :
  returned_rows (make_undirected signed3)
  = Some [[1; -1 # 2; 2]; [-1 # 2; 2; -1 # 2]; [2; -1 # 2; 3]].
Proof. reflexivity. Qed.

Example knn_graph_signed3_directed :
  returned_rows (knn_graph signed3 1 false false)
  = Some [[0; 0; 0]; [-2; 0; 2]; [3; -3; 0]].
Proof. reflexivity. Qed.

Example knn_graph_signed3_selfloops :
  returned_rows (knn_graph signed3 1 true false)
  = Some [[0; 0; 0]; [-2; 2; 2]; [3; -3; 3]].
Proof. reflexivity. Qed.

Example knn_graph_signed3_symmetric :
  returned_rows (knn_graph signed3 1 false true)
  = Some [[0; -1; 3 # 2]; [-1; 0; -1 # 2]; [3 # 2; -1 # 2; 0]].
Proof. reflexivity. Qed.

Example quantiles_symmetric3 :
  map Qred (quantile_axis0 (np_abs symmetric3) (knn_level 3 1)) = [22 # 3; 1; 1].
Proof. reflexivity. Qed.

Example knn_graph_quantile_symmetric3 :
  returned_rows (knn_graph_quantile symmetric3 true 1 false)
  = Some [[10; 0; 10]; [2; 1; 1]; [10; 1; 1]].
Proof. reflexivity. Qed.

Example knn_graph_quantile_signed3 :
  returned_rows (knn_graph_quantile signed3 true 1 false)
  = Some [[1; 0; 0]; [2; 2; 2]; [3; 3; 3]].
Proof. reflexivity. Qed.

Example make_group_graph_signed3 :
  make_group_graph [signed3] 1 false false
  = Return (mkData [(0, 1); (0, 2); (1, 0); (1, 2); (2, 1); (2, 0)]%nat
                   [-2 # 1; 3 # 1; -2 # 1; -3 # 1; -3 # 1; 3 # 1] 3).
Proof. vm_compute. reflexivity. Qed.

(** ** The theorems at concrete inputs *)

Lemma make_undirected_average_or_ceiling_witness :
  exists S, make_undirected binary4 = Return S /\ S.[0, 1] = 1 /\ S.[1, 0] = 1.
Proof.
  destruct (make_undirected_average_or_ceiling binary4 eq_refl)
    as (S & HS & _ & _ & _ & _ & Hbin).
  exists S. split; [exact HS |]. apply Hbin.
  - intros i j Hi Hj. index_cases i; index_cases j;
      first [left; reflexivity | right; reflexivity].
  - simpl; lia.
  - reflexivity.
  - reflexivity.
Defined.

Lemma make_undirected_symmetric_witness :
  exists S, make_undirected binary4 = Return S /\ transpose 0 S = S.
Proof. apply (make_undirected_symmetric binary4). reflexivity. Defined.

Lemma knn_graph_column_degree_witness :
  exists out, knn_graph signed3 1 true false = Return out /\
    forall j, (j < 3)%nat -> Z.of_nat (count_nonzero (column 0 out j)) = 2%Z.
Proof.
  apply (knn_graph_column_degree (AS := StableArgSort) signed3 1).
  - reflexivity.
  - intros i j Hi Hj. index_cases i; index_cases j; intros E; q_absurd E.
  - simpl; lia.
Defined.

Lemma knn_graph_quantile_row_threshold_witness :
  exists out, knn_graph_quantile symmetric3 true 1 false = Return out /\
    forall i j, (i < 3)%nat -> (j < 3)%nat ->
      let threshold := quantile_1d (column 0 (np_abs symmetric3) i) (knn_level 3 1) in
      threshold == quantile_1d (row 0 (np_abs symmetric3) i) (knn_level 3 1) /\
      (Qabs symmetric3.[i, j] < threshold -> out.[i, j] = 0) /\
      (~ Qabs symmetric3.[i, j] < threshold -> out.[i, j] = Qabs symmetric3.[i, j]).
Proof.
  apply (knn_graph_quantile_row_threshold symmetric3 1).
  - reflexivity.
  - intros i j Hi Hj. index_cases i; index_cases j; reflexivity.
  - simpl; lia.
Defined.

Lemma knn_graph_keeps_original_entries_witness :
  exists out, knn_graph signed3 1 false false = Return out /\
    shape0 out = 3%nat /\ shape1 out = 3%nat /\
    forall i j, (i < 3)%nat -> (j < 3)%nat ->
      (out.[i, j] = 0 \/ out.[i, j] = signed3.[i, j]) /\
      out.[i, j] =
        if negb false && (i =? j)%nat then 0
        else if existsb (Nat.eqb i) (kept_rows (np_abs signed3) 1 j)
             then signed3.[i, j] else 0.
Proof.
  apply (knn_graph_keeps_original_entries (AS := StableArgSort) signed3 1 false).
  - reflexivity.
  - simpl; lia.
Defined.

Lemma make_group_graph_of_symmetric_witness :
  exists data avg_conn_k,
    knn_graph (mean_axis0 signed3 [signed3; signed3]) 1 false true
    = Return avg_conn_k /\
    make_group_graph [signed3; signed3] 1 false true = Return data /\
    edge_index data = nonzero avg_conn_k /\
    weight data = map (fun p => avg_conn_k.[fst p, snd p]) (nonzero avg_conn_k).
Proof.
  destruct (make_group_graph_of_symmetric (AS := StableArgSort)
              signed3 [signed3] 1 false true)
    as (out & _ & _ & _ & Hknn & _ & Hsym & Hgraph).
  - intros c [<- | [<- | []]]; split; reflexivity.
  - reflexivity.
  - simpl; lia.
  - destruct (Hgraph (Hsym eq_refl)) as (data & Hd & E1 & E2).
    exists data, out. repeat split; assumption.
Defined.

Lemma selfloops_false_zero_diagonal_witness :
  (exists out, knn_graph signed3 1 false true = Return out /\
     forall i, (i < 3)%nat -> out.[i, i] == 0) /\
  (exists out, knn_graph_quantile signed3 false 1 true = Return out /\
     forall i, (i < 3)%nat -> out.[i, i] == 0).
Proof.
  apply (selfloops_false_zero_diagonal (AS := StableArgSort) signed3 1 true).
  - reflexivity.
  - simpl; lia.
Defined.

Lemma builders_range_check_witness :
  (knn_graph dense5 0 false true = Raise RangeError /\
   knn_graph_quantile dense5 false 0 true = Raise RangeError) /\
  (knn_graph dense5 5 false true = Raise RangeError /\
   knn_graph_quantile dense5 false 5 true = Raise RangeError) /\
  ((exists out, knn_graph dense5 4 false true = Return out) /\
   (exists out, knn_graph_quantile dense5 false 4 true = Return out)).
Proof.
  split; [| split].
  - apply (builders_range_check (AS := StableArgSort) dense5 0 false true eq_refl).
    left. lia.
  - apply (builders_range_check (AS := StableArgSort) dense5 5 false true eq_refl).
    right. simpl. lia.
  - apply (builders_range_check (AS := StableArgSort) dense5 4 false true eq_refl).
    simpl. lia.
Defined.

Lemma non_square_rejected_witness :
  make_undirected wide34 = Raise ShapeError /\
  knn_graph wide34 1 false true = Raise ShapeError /\
  knn_graph_quantile wide34 false 1 true = Raise ShapeError.
Proof.
  apply (non_square_rejected (AS := StableArgSort) wide34 1 false true).
  simpl. lia.
Defined.

Lemma knn_graph_quantile_absolute_entries_witness :
  exists out, knn_graph_quantile signed3 false 1 false = Return out /\
    forall i j, (i < 3)%nat -> (j < 3)%nat ->
      (out.[i, j] = 0 \/ out.[i, j] = Qabs signed3.[i, j]) /\ 0 <= out.[i, j].
Proof.
  apply (knn_graph_quantile_absolute_entries signed3 false 1).
  - reflexivity.
  - simpl; lia.
Defined.

(** * Further properties of the module *)

From Stdlib Require Import Lqa.

(** ** The symmetric flag of the builders *)

(** Two well-formed arrays of one shape with the same entries are equal. *)
Lemma wf_ext {A : Type} (d : A) (a b : ndarray A) :
  wf a -> wf b -> shape0 a = shape0 b -> shape1 a = shape1 b ->
  (forall i j, (i < shape0 a)%nat -> (j < shape1 a)%nat -> get d a i j = get d b i j) ->
  a = b.
Proof.
  intros Ha Hb H0 H1 He.
  rewrite <- (tabulate_get d a Ha), <- (tabulate_get d b Hb), <- H0, <- H1.
  apply tabulate_ext. exact He.
Qed.

Section SymmetricFlag.
Context {AS : ArgSort}.

(** The directed matrix of [knn_graph] does not depend on the flag. *)
Lemma knn_graph_both_flags (M : matrix) (k : Z) (selfloops : bool) :
  shape0 M = shape1 M ->
  (1 <= k <= Z.of_nat (shape0 M) - 1)%Z ->
  exists adj, wf adj /\ shape0 adj = shape0 M /\ shape1 adj = shape0 M /\
    (forall i j, (i < shape0 M)%nat -> (j < shape0 M)%nat ->
       adj.[i, j] = knn_entry M k selfloops i j) /\
    knn_graph M k selfloops false = Return adj /\
    knn_graph M k selfloops true = make_undirected adj.
Proof.
  intros Hsq Hk.
  destruct (knn_graph_returns M k selfloops false Hsq Hk)
    as (adj & Hwf & H0 & H1 & Hent & Hf).
  destruct (knn_graph_returns M k selfloops true Hsq Hk)
    as (adj' & Hwf' & H0' & H1' & Hent' & Ht).
  assert (E : adj' = adj).
  { apply (wf_ext 0); try assumption; try congruence.
    intros i j Hi Hj. rewrite Hent, Hent' by congruence. reflexivity. }
  subst adj'. simpl in Hf, Ht. exists adj.
  split; [exact Hwf |]. repeat split; assumption.
Qed.

Lemma knn_graph_quantile_both_flags (M : matrix) (self_loops : bool) (k : Z) :
  shape0 M = shape1 M ->
  (1 <= k <= Z.of_nat (shape0 M) - 1)%Z ->
  exists adj, wf adj /\ shape0 adj = shape0 M /\ shape1 adj = shape0 M /\
    (forall i j, (i < shape0 M)%nat -> (j < shape0 M)%nat ->
       adj.[i, j] = quantile_entry M self_loops k i j) /\
    knn_graph_quantile M self_loops k false = Return adj /\
    knn_graph_quantile M self_loops k true = make_undirected adj.
Proof.
  intros Hsq Hk.
  destruct (knn_graph_quantile_returns M self_loops k false Hsq Hk)
    as (adj & Hwf & H0 & H1 & Hent & Hf).
  destruct (knn_graph_quantile_returns M self_loops k true Hsq Hk)
    as (adj' & Hwf' & H0' & H1' & Hent' & Ht).
  assert (E : adj' = adj).
  { apply (wf_ext 0); try assumption; try congruence.
    intros i j Hi Hj. rewrite Hent, Hent' by congruence. reflexivity. }
  subst adj'. simpl in Hf, Ht. exists adj.
  split; [exact Hwf |]. repeat split; assumption.
Qed.

Lemma make_undirected_fixed_by_transpose (adj : matrix) :
  shape0 adj = shape1 adj ->
  exists out, make_undirected adj = Return out /\ transpose 0 out = out /\
    shape0 out = shape0 adj /\ shape1 out = shape0 adj /\
    forall i j, (i < shape0 adj)%nat -> (j < shape0 adj)%nat ->
      out.[i, j] = undirected_entry adj i j.
Proof.
  intros Hsq.
  destruct (make_undirected_returns adj Hsq) as (S & HS & Hwf & H0 & H1 & Hent).
  exists S. split; [exact HS |]. split; [| repeat split; assumption].
  rewrite <- (tabulate_get 0 S Hwf) at 2.
  unfold transpose. rewrite H0, H1.
  apply tabulate_ext. intros i j Hi Hj.
  rewrite !Hent by assumption. apply undirected_entry_sym.
Qed.

(** X1.  On a square matrix and a valid k, each builder called with
    symmetric=True returns what [make_undirected] makes of the matrix
    the same call returns with symmetric=False, and that result equals
    its own transpose. *)
Theorem builders_symmetric_flag (M : matrix) (k : Z) (selfloops : bool) :
  shape0 M = shape1 M ->
  (1 <= k <= Z.of_nat (shape0 M) - 1)%Z ->
  (exists adj out,
     knn_graph M k selfloops false = Return adj /\
     knn_graph M k selfloops true = Return out /\
     make_undirected adj = Return out /\ transpose 0 out = out) /\
  (exists adj out,
     knn_graph_quantile M selfloops k false = Return adj /\
     knn_graph_quantile M selfloops k true = Return out /\
     make_undirected adj = Return out /\ transpose 0 out = out).
Proof.
  intros Hsq Hk. split.
  - destruct (knn_graph_both_flags M k selfloops Hsq Hk)
      as (adj & _ & H0 & H1 & _ & Hf & Ht).
    destruct (make_undirected_fixed_by_transpose adj) as (out & Ho & Hsym & _);
      [congruence |].
    exists adj, out. rewrite Ht. repeat split; assumption.
  - destruct (knn_graph_quantile_both_flags M selfloops k Hsq Hk)
      as (adj & _ & H0 & H1 & _ & Hf & Ht).
    destruct (make_undirected_fixed_by_transpose adj) as (out & Ho & Hsym & _);
      [congruence |].
    exists adj, out. rewrite Ht. repeat split; assumption.
Qed.

(** X2.  The docstring of [knn_graph]: with symmetric=True an edge kept
    in one direction only comes out with half its strength, in both
    directions.  The code does so unless the directed matrix has exactly
    two distinct values, the case the symmetrizer rounds up. *)
Theorem knn_graph_one_sided_edge_halved (M : matrix) (k : Z) (selfloops : bool) :
  shape0 M = shape1 M ->
  (1 <= k <= Z.of_nat (shape0 M) - 1)%Z ->
  exists adj out,
    knn_graph M k selfloops false = Return adj /\
    knn_graph M k selfloops true = Return out /\
    (length (np_unique (ravel 0%Q adj)) <> 2%nat ->
     forall i j, (i < shape0 M)%nat -> (j < shape0 M)%nat ->
       adj.[j, i] == 0 ->
       out.[i, j] == adj.[i, j] / 2 /\ out.[j, i] == adj.[i, j] / 2).
Proof.
  intros Hsq Hk.
  destruct (knn_graph_both_flags M k selfloops Hsq Hk)
    as (adj & _ & H0 & H1 & _ & Hf & Ht).
  destruct (make_undirected_fixed_by_transpose adj) as (out & Ho & _ & _ & _ & Hent);
    [congruence |].
  exists adj, out. rewrite Ht. split; [exact Hf |]. split; [exact Ho |].
  intros Hne i j Hi Hj Hz. apply Nat.eqb_neq in Hne.
  rewrite !Hent by congruence. unfold undirected_entry. rewrite Hne.
  rewrite Hz. split; field.
Qed.
End SymmetricFlag.

(** ** The symmetrizer on symmetric and on unweighted matrices *)

Lemma Qneq_bool_iff (x : Q) : Qneq_bool x 0 = true <-> ~ x == 0.
Proof.
  unfold Qneq_bool. rewrite negb_true_iff. split.
  - intros E H. apply Qeq_bool_iff in H. congruence.
  - intros H. destruct (Qeq_bool x 0) eqn:E; [| reflexivity].
    apply Qeq_bool_iff in E. contradiction.
Qed.

(** X3.  A matrix that already equals its transpose comes back
    unchanged (numerically) when its number of distinct values is not 2,
    and also when all its entries are integers, whatever their number. *)
Theorem make_undirected_fixes_symmetric (M : matrix) :
  shape0 M = shape1 M ->
  (forall i j, (i < shape0 M)%nat -> (j < shape0 M)%nat -> M.[i, j] == M.[j, i]) ->
  length (np_unique (ravel 0%Q M)) <> 2%nat \/
  (forall i j, (i < shape0 M)%nat -> (j < shape0 M)%nat ->
     exists z : Z, M.[i, j] == inject_Z z) ->
  exists S, make_undirected M = Return S /\
    forall i j, (i < shape0 M)%nat -> (j < shape0 M)%nat -> S.[i, j] == M.[i, j].
Proof.
  intros Hsq Hsym Hcase.
  destruct (make_undirected_returns M Hsq) as (S & HS & _ & _ & _ & Hent).
  exists S. split; [exact HS |]. intros i j Hi Hj.
  rewrite Hent by assumption. unfold undirected_entry.
  assert (Havg : (M.[i, j] + M.[j, i]) / 2 == M.[i, j]).
  { rewrite <- (Hsym i j) by assumption. field. }
  destruct (length (np_unique (ravel 0%Q M)) =? 2)%nat eqn:E.
  - apply Nat.eqb_eq in E. destruct Hcase as [Hne | Hint]; [contradiction |].
    destruct (Hint i j Hi Hj) as (z & Hz).
    assert (C : Qceiling ((M.[i, j] + M.[j, i]) / 2) = z).
    { rewrite <- (Qceiling_Z z). apply Qceiling_comp.
      rewrite Havg. exact Hz. }
    rewrite C, Hz. reflexivity.
  - exact Havg.
Qed.

(** X4.  The docstring of [make_undirected]: an unweighted input gives an
    unweighted output.  On a square matrix over the values 0 and 1 the
    result is again over 0 and 1, with a 1 exactly where the input has a
    1 in either direction. *)
Theorem make_undirected_unweighted (M : matrix) :
  shape0 M = shape1 M ->
  (forall i j, (i < shape0 M)%nat -> (j < shape0 M)%nat ->
     M.[i, j] == 0 \/ M.[i, j] == 1) ->
  exists S, make_undirected M = Return S /\
    forall i j, (i < shape0 M)%nat -> (j < shape0 M)%nat ->
      (S.[i, j] == 0 \/ S.[i, j] == 1) /\
      (S.[i, j] == 1 <-> M.[i, j] == 1 \/ M.[j, i] == 1).
Proof.
  intros Hsq Hbin.
  destruct (make_undirected_returns M Hsq) as (S & HS & _ & _ & _ & Hent).
  exists S. split; [exact HS |]. intros i j Hi Hj.
  rewrite Hent by assumption. unfold undirected_entry.
  assert (Htwo : forall a b, (a < shape0 M)%nat -> (b < shape0 M)%nat ->
             M.[a, b] == 1 -> M.[b, a] == 0 ->
             length (np_unique (ravel 0%Q M)) = 2%nat).
  { intros a b Ha Hb H1 H0. apply np_unique_binary.
    - intros x Hx. apply in_ravel in Hx.
      destruct Hx as (i' & j' & Hi' & Hj' & ->). apply Hbin; lia.
    - exists M.[b, a]. split; [| exact H0].
      apply in_ravel. exists b, a. repeat split; lia.
    - exists M.[a, b]. split; [| exact H1].
      apply in_ravel. exists a, b. repeat split; lia. }
  destruct (Hbin i j Hi Hj) as [A | A], (Hbin j i Hj Hi) as [B | B];
    destruct (length (np_unique (ravel 0%Q M)) =? 2)%nat eqn:E;
    try (apply Nat.eqb_neq in E);
    try (exfalso; apply E; eauto; fail);
    rewrite A, B;
    (split; [first [left; reflexivity | right; reflexivity] |]);
    (split; [intros H; first [q_absurd H | now left | now right]
            | intros [H | H]; first [q_absurd H | reflexivity]]).
Qed.

(** ** What [knn_graph] keeps *)

Lemma existsb_eqb_In (r : nat) (L : list nat) :
  existsb (Nat.eqb r) L = true <-> In r L.
Proof.
  rewrite existsb_exists. split.
  - intros (x & Hx & E). apply Nat.eqb_eq in E. now subst.
  - intros H. exists r. split; [exact H | apply Nat.eqb_refl].
Qed.

(** Counting the members other than [j]. *)
Lemma length_filter_members_but (L : list nat) (n j : nat) :
  NoDup L -> (forall x, In x L -> (x < n)%nat) -> In j L ->
  S (length (filter (fun i => negb (i =? j)%nat && existsb (Nat.eqb i) L) (seq 0 n)))
  = length L.
Proof.
  intros Hnd Hlt Hj.
  set (F := filter (fun i => negb (i =? j)%nat && existsb (Nat.eqb i) L) (seq 0 n)).
  change (length (j :: F) = length L).
  apply Permutation_length, NoDup_Permutation.
  - constructor.
    + unfold F. rewrite filter_In, Nat.eqb_refl. simpl. intros [_ H]. discriminate.
    + apply NoDup_filter, seq_NoDup.
  - exact Hnd.
  - intros x. simpl. unfold F.
    rewrite filter_In, in_seq, andb_true_iff, negb_true_iff, Nat.eqb_neq, existsb_eqb_In.
    split.
    + intros [<- | (_ & _ & H)]; assumption.
    + intros Hx. destruct (Nat.eq_dec j x) as [-> | Hne]; [now left | right].
      specialize (Hlt x Hx). repeat split; try lia; exact Hx.
Qed.

Section KnnKeeps.
Context {AS : ArgSort}.

(** X5.  Top-k selection: in every column of the matrix [knn_graph]
    returns (symmetric=False), an entry that survives is at least as
    strong, in absolute value of the input, as any entry of the column
    that comes out zero; without self-loops the diagonal entry, zeroed
    whatever its strength, is excepted. *)
Theorem knn_graph_keeps_strongest (M : matrix) (k : Z) (selfloops : bool) :
  shape0 M = shape1 M ->
  (1 <= k <= Z.of_nat (shape0 M) - 1)%Z ->
  exists out, knn_graph M k selfloops false = Return out /\
    forall j r r', (j < shape0 M)%nat -> (r < shape0 M)%nat -> (r' < shape0 M)%nat ->
      (selfloops = false -> r' <> j) ->
      ~ out.[r, j] == 0 -> out.[r', j] == 0 ->
      Qabs M.[r', j] <= Qabs M.[r, j].
Proof.
  intros Hsq Hk.
  destruct (knn_graph_returns M k selfloops false Hsq Hk)
    as (adj & _ & H0 & H1 & Hent & ->).
  exists adj. split; [reflexivity |].
  intros j r r' Hj Hr Hr' Hdiag Hnz Hz.
  rewrite Hent in Hnz, Hz by assumption. unfold knn_entry in Hnz, Hz.
  rewrite get_knn_mask in Hnz, Hz by assumption.
  assert (Hin : In r (kept_rows (np_abs M) k j)).
  { destruct (negb selfloops && (r =? j)%nat); [exfalso; apply Hnz; reflexivity |].
    destruct (existsb (Nat.eqb r) (kept_rows (np_abs M) k j)) eqn:E;
      [now apply existsb_eqb_In | exfalso; apply Hnz; reflexivity]. }
  assert (Hd : negb selfloops && (r' =? j)%nat = false).
  { destruct selfloops; [reflexivity |]. simpl.
    apply Nat.eqb_neq, Hdiag. reflexivity. }
  rewrite Hd in Hz.
  destruct (existsb (Nat.eqb r') (kept_rows (np_abs M) k j)) eqn:E.
  - rewrite Hz. apply Qabs_nonneg.
  - rewrite <- !get_np_abs by congruence.
    apply (kept_rows_largest (np_abs M) k j r r'); [exact Hin | exact Hr' |].
    intros H. apply existsb_eqb_In in H. congruence.
Qed.

Lemma kept_rows_all (m : matrix) (k : Z) (i r : nat) :
  Z.to_nat (k + 1) = shape0 m -> (r < shape0 m)%nat -> In r (kept_rows m k i).
Proof.
  intros Hk Hr. unfold kept_rows, slice_last.
  rewrite length_argsort, length_column, Hk, Nat.sub_diag. simpl.
  apply (Permutation_in _ (Permutation_sym (argsort_perm _))).
  apply in_seq. rewrite length_column. lia.
Qed.

(** X6.  The largest admitted k keeps every row: with k = n - 1 and
    symmetric=False, [knn_graph] returns the input itself, up to the
    diagonal it zeroes without self-loops. *)
Theorem knn_graph_largest_k (M : matrix) (selfloops : bool) :
  shape0 M = shape1 M -> (2 <= shape0 M)%nat ->
  exists out, knn_graph M (Z.of_nat (shape0 M) - 1) selfloops false = Return out /\
    forall i j, (i < shape0 M)%nat -> (j < shape0 M)%nat ->
      out.[i, j] = if negb selfloops && (i =? j)%nat then 0 else M.[i, j].
Proof.
  intros Hsq Hn.
  destruct (knn_graph_returns M (Z.of_nat (shape0 M) - 1) selfloops false Hsq)
    as (adj & _ & H0 & H1 & Hent & ->); [lia |].
  exists adj. split; [reflexivity |]. intros i j Hi Hj.
  rewrite Hent by assumption. unfold knn_entry.
  rewrite get_knn_mask by assumption.
  assert (E : existsb (Nat.eqb i)
                (kept_rows (np_abs M) (Z.of_nat (shape0 M) - 1) j) = true).
  { apply existsb_eqb_In, kept_rows_all; [simpl; lia | exact Hi]. }
  now rewrite E.
Qed.

(** X7.  The k nearest neighbours proper: when every diagonal entry is
    strictly the strongest of its column (as in a correlation matrix)
    and no entry is zero, [knn_graph] without self-loops and with
    symmetric=False leaves exactly k nonzero entries in every column,
    none of them on the diagonal. *)
Theorem knn_graph_dominant_diagonal (M : matrix) (k : Z) :
  shape0 M = shape1 M ->
  (forall i j, (i < shape0 M)%nat -> (j < shape0 M)%nat -> ~ M.[i, j] == 0) ->
  (forall i j, (i < shape0 M)%nat -> (j < shape0 M)%nat -> i <> j ->
     Qabs M.[i, j] < Qabs M.[j, j]) ->
  (1 <= k <= Z.of_nat (shape0 M) - 1)%Z ->
  exists out, knn_graph M k false false = Return out /\
    forall j, (j < shape0 M)%nat ->
      Z.of_nat (count_nonzero (column 0 out j)) = k /\ out.[j, j] = 0.
Proof.
  intros Hsq Hnz Hdom Hk.
  destruct (knn_graph_returns M k false false Hsq Hk)
    as (adj & _ & H0 & H1 & Hent & ->).
  exists adj. split; [reflexivity |]. intros j Hj.
  assert (Hdiag : In j (kept_rows (np_abs M) k j)).
  { destruct (in_dec Nat.eq_dec j (kept_rows (np_abs M) k j)) as [H | H];
      [exact H | exfalso].
    destruct (kept_rows (np_abs M) k j) as [| r rest] eqn:E.
    - pose proof (length_kept_rows (np_abs M) k j) as L.
      rewrite E in L. simpl in L. lia.
    - assert (Hr : In r (kept_rows (np_abs M) k j)) by (rewrite E; now left).
      pose proof (kept_rows_bound _ _ _ _ Hr) as Hrb. simpl in Hrb.
      assert (Hrj : r <> j) by (intros ->; apply H; now left).
      rewrite <- E in H.
      pose proof (kept_rows_largest (np_abs M) k j r j Hr Hj H) as Hle.
      rewrite !get_np_abs in Hle by congruence.
      apply (Qlt_not_le _ _ (Hdom r j Hrb Hj Hrj) Hle). }
  split.
  - unfold count_nonzero, column. rewrite length_filter_map, H0.
    rewrite (filter_ext_in _
               (fun i => negb (i =? j)%nat
                         && existsb (Nat.eqb i) (kept_rows (np_abs M) k j))).
    + pose proof (length_filter_members_but (kept_rows (np_abs M) k j) (shape0 M) j
                    (kept_rows_NoDup _ _ _)) as L.
      rewrite length_kept_rows in L by (simpl; lia).
      specialize (L (fun x Hx => kept_rows_bound (np_abs M) k j x Hx) Hdiag). lia.
    + intros i Hi. apply in_seq in Hi.
      rewrite Hent by lia. unfold knn_entry. simpl negb. simpl andb.
      rewrite get_knn_mask by lia.
      destruct (i =? j)%nat; [reflexivity |]. simpl.
      destruct (existsb (Nat.eqb i) (kept_rows (np_abs M) k j)); [| reflexivity].
      apply Qneq_bool_iff. apply Hnz; lia.
  - rewrite Hent by assumption. unfold knn_entry. now rewrite Nat.eqb_refl.
Qed.
End KnnKeeps.

(** ** What [knn_graph_quantile] keeps *)

Lemma np_all_equal_asymmetric (M : matrix) i j :
  shape0 M = shape1 M -> (i < shape0 M)%nat -> (j < shape0 M)%nat ->
  ~ M.[i, j] == M.[j, i] ->
  np_all_equal M (transpose 0 M) = false.
Proof.
  intros Hsq Hi Hj Hne. destruct (np_all_equal M (transpose 0 M)) eqn:E;
    [exfalso | reflexivity].
  unfold np_all_equal in E. rewrite forallb_forall in E.
  apply Hne, Qeq_bool_iff.
  specialize (E (Qeq_bool M.[i, j] M.[j, i])). apply E.
  apply in_ravel. exists i, j. unfold map2. cbn [shape0 shape1 tabulate].
  split; [exact Hi |]. split; [lia |].
  rewrite get_tabulate by lia. unfold transpose. now rewrite get_tabulate by lia.
Qed.

(** X8.  The directed branch.  On a square matrix that differs from its
    transpose, [knn_graph_quantile] (self_loops=True, symmetric=False)
    zeroes the entry (i, j) exactly when its absolute value is strictly
    below both the quantile of column i and the quantile of row j of
    |M|, and returns the absolute value otherwise. *)
Theorem knn_graph_quantile_directed_mask (M : matrix) (k : Z) (i0 j0 : nat) :
  shape0 M = shape1 M ->
  (i0 < shape0 M)%nat -> (j0 < shape0 M)%nat -> ~ M.[i0, j0] == M.[j0, i0] ->
  (1 <= k <= Z.of_nat (shape0 M) - 1)%Z ->
  exists out, knn_graph_quantile M true k false = Return out /\
    forall i j, (i < shape0 M)%nat -> (j < shape0 M)%nat ->
      let below :=
        Qabs M.[i, j] < quantile_1d (column 0 (np_abs M) i) (knn_level (shape0 M) k) /\
        Qabs M.[i, j] < quantile_1d (row 0 (np_abs M) j) (knn_level (shape0 M) k) in
      (below -> out.[i, j] = 0) /\ (~ below -> out.[i, j] = Qabs M.[i, j]).
Proof.
  intros Hsq Hi0 Hj0 Hne Hk.
  destruct (knn_graph_quantile_returns M true k false Hsq Hk)
    as (adj & _ & H0 & H1 & Hent & ->).
  exists adj. split; [reflexivity |]. intros i j Hi Hj below.
  rewrite Hent by assumption. unfold quantile_entry. cbv zeta.
  rewrite (np_all_equal_asymmetric M i0 j0) by assumption.
  simpl negb. simpl andb. cbv iota.
  rewrite get_np_abs by congruence. subst below.
  destruct (Qlt_bool (Qabs M.[i, j]) (quantile_1d (column 0 (np_abs M) i) _)) eqn:Eh;
    destruct (Qlt_bool (Qabs M.[i, j]) (quantile_1d (row 0 (np_abs M) j) _)) eqn:Ev;
    simpl andb; cbv iota; (split; [try reflexivity | try reflexivity]).
  - intros Hn. exfalso. apply Hn. split; now apply Qlt_bool_iff.
  - intros [_ H]. apply Qlt_bool_iff in H. congruence.
  - intros [H _]. apply Qlt_bool_iff in H. congruence.
  - intros [H _]. apply Qlt_bool_iff in H. congruence.
Qed.

(** *** The quantile against the sorted values *)

Lemma insert_value_perm x s : Permutation (insert_value x s) (x :: s).
Proof.
  induction s as [| y t IH]; simpl; [reflexivity |].
  destruct (Qle_bool x y); [reflexivity |].
  rewrite IH. apply perm_swap.
Qed.

Lemma np_sort_perm l : Permutation (np_sort l) l.
Proof.
  induction l as [| x l IH]; simpl; [reflexivity |].
  rewrite insert_value_perm. now constructor.
Qed.

Lemma insert_value_sorted x s :
  StronglySorted Qle s -> StronglySorted Qle (insert_value x s).
Proof.
  induction s as [| y t IH]; simpl; intros Hs.
  - repeat constructor.
  - inversion Hs as [| ? ? Ht Hy]; subst.
    destruct (Qle_bool x y) eqn:E.
    + apply Qle_bool_iff in E. constructor; [exact Hs |].
      constructor; [exact E |].
      eapply Forall_impl; [| exact Hy]. intros b Hb. simpl in Hb.
      eapply Qle_trans; eassumption.
    + assert (Hyx : y <= x).
      { destruct (Qlt_le_dec y x) as [H | H]; [apply Qlt_le_weak, H |].
        apply Qle_bool_iff in H. congruence. }
      constructor; [apply IH, Ht |].
      eapply Permutation_Forall; [symmetry; apply insert_value_perm |].
      constructor; assumption.
Qed.

Lemma np_sort_sorted l : StronglySorted Qle (np_sort l).
Proof.
  induction l as [| x l IH]; simpl; [constructor |].
  apply insert_value_sorted, IH.
Qed.

Lemma sorted_skipn_lower s : forall m x,
  StronglySorted Qle s -> In x (skipn m s) -> nth m s 0 <= x.
Proof.
  induction s as [| a s IH]; intros m x Hs Hx.
  - destruct m; destruct Hx.
  - inversion Hs as [| ? ? Hs' Ha]; subst. destruct m as [| m]; simpl in *.
    + destruct Hx as [<- | Hx]; [apply Qle_refl |].
      rewrite Forall_forall in Ha. apply Ha, Hx.
    + apply IH; assumption.
Qed.

Lemma sorted_nth_le s i j :
  StronglySorted Qle s -> (i <= j)%nat -> (j < length s)%nat ->
  nth i s 0 <= nth j s 0.
Proof.
  intros Hs Hij Hj. apply sorted_skipn_lower; [exact Hs |].
  assert (E : nth j s 0 = nth (j - i) (skipn i s) 0).
  { rewrite <- (firstn_skipn i s) at 1.
    replace j with (length (firstn i s) + (j - i))%nat at 1
      by (rewrite length_firstn; lia).
    apply app_nth2_plus. }
  rewrite E. apply nth_In. rewrite length_skipn. lia.
Qed.

(** The virtual index of the level [(n - k - 1) / n] in a list of [n]
    values lies in [0, n - k - 1], strictly below the upper end unless
    that is 0. *)
Lemma knn_level_index (n : nat) (k : Z) :
  (1 <= k <= Z.of_nat n - 1)%Z ->
  let v := knn_level n k * inject_Z (Z.of_nat (n - 1)) in
  0 <= v /\
  ((Z.of_nat n - k - 1 = 0)%Z -> v == 0) /\
  ((0 < Z.of_nat n - k - 1)%Z -> v < inject_Z (Z.of_nat n - k - 1)).
Proof.
  intros Hk v. subst v. unfold knn_level.
  set (m := (Z.of_nat n - k - 1)%Z).
  assert (HN : 1 <= inject_Z (Z.of_nat n)) by (unfold Qle; simpl; lia).
  assert (HP : inject_Z (Z.of_nat (n - 1)) == inject_Z (Z.of_nat n) - 1).
  { unfold Qeq, Qminus, Qplus, Qopp. simpl. lia. }
  assert (HM : 0 <= inject_Z m) by (unfold Qle; simpl; lia).
  set (N := inject_Z (Z.of_nat n)) in *.
  set (P := inject_Z (Z.of_nat (n - 1))) in *.
  set (Mq := inject_Z m) in *.
  assert (HvN : Mq / N * P * N == Mq * P) by (field; lra).
  set (v := Mq / N * P) in *.
  split; [| split].
  - nra.
  - intros E. assert (Mq == 0) by (subst Mq; rewrite E; reflexivity). nra.
  - intros Hpos. assert (0 < Mq) by (subst Mq; unfold Qlt; simpl; lia). nra.
Qed.

Lemma length_np_sort l : length (np_sort l) = length l.
Proof. apply Permutation_length, np_sort_perm. Qed.

(** The quantile of the level [(n - k - 1) / n] is at most the value of
    rank [n - k - 1] (from 0) in the sorted list. *)
Lemma quantile_le_rank (l : list Q) (k : Z) :
  (1 <= k <= Z.of_nat (length l) - 1)%Z ->
  quantile_1d l (knn_level (length l) k)
  <= nth (Z.to_nat (Z.of_nat (length l) - k - 1)) (np_sort l) 0.
Proof.
  intros Hk. unfold quantile_1d. cbv zeta.
  destruct (knn_level_index (length l) k Hk) as (Hv0 & Hvz & Hvm).
  set (n := length l) in *.
  set (v := knn_level n k * inject_Z (Z.of_nat (n - 1))) in *.
  set (s := np_sort l).
  assert (Hs : StronglySorted Qle s) by apply np_sort_sorted.
  assert (Ls : length s = n) by apply length_np_sort.
  pose proof (Qfloor_le v) as Hf1. pose proof (Qlt_floor v) as Hf2.
  assert (Hf0 : (0 <= Qfloor v)%Z).
  { change 0%Z with (Qfloor 0). apply Qfloor_resp_le, Hv0. }
  destruct (Z.eq_dec (Z.of_nat n - k - 1) 0) as [E | E].
  - assert (Ev : v == 0) by (apply Hvz, E).
    assert (Ef : Qfloor v = 0%Z) by (rewrite (Qfloor_comp _ _ Ev); reflexivity).
    rewrite E, Ef. change (Z.to_nat 0) with 0%nat. change (inject_Z 0) with 0.
    set (b := nth (Nat.min (0 + 1) (n - 1)) s 0). nra.
  - assert (Hlt : v < inject_Z (Z.of_nat n - k - 1)) by (apply Hvm; lia).
    assert (Hfm : (Qfloor v < Z.of_nat n - k - 1)%Z).
    { rewrite Zlt_Qlt. eapply Qle_lt_trans; eassumption. }
    set (prev := Z.to_nat (Qfloor v)).
    set (next := Nat.min (prev + 1) (n - 1)).
    set (m := Z.to_nat (Z.of_nat n - k - 1)).
    assert (Hpn : (prev <= next)%nat) by (subst prev next; lia).
    assert (Hnm : (next <= m)%nat) by (subst prev next m; lia).
    assert (Hmn : (m < n)%nat) by (subst m; lia).
    assert (H1 : nth prev s 0 <= nth next s 0)
      by (apply sorted_nth_le; [exact Hs | exact Hpn | lia]).
    assert (H2 : nth next s 0 <= nth m s 0)
      by (apply sorted_nth_le; [exact Hs | exact Hnm | lia]).
    assert (Hg : inject_Z (Qfloor v + 1) == inject_Z (Qfloor v) + 1).
    { unfold Qeq, Qplus. simpl. lia. }
    nra.
Qed.

Lemma length_filter_perm {A : Type} (p : A -> bool) (l l' : list A) :
  Permutation l l' -> length (filter p l) = length (filter p l').
Proof.
  induction 1; simpl; try congruence.
  - destruct (p x); simpl; congruence.
  - destruct (p x), (p y); reflexivity.
Qed.

(** At least k + 1 of the values are not below the quantile. *)
Lemma count_not_below_quantile (l : list Q) (k : Z) :
  (1 <= k <= Z.of_nat (length l) - 1)%Z ->
  (k + 1 <= Z.of_nat (length (filter
      (fun x => negb (Qlt_bool x (quantile_1d l (knn_level (length l) k)))) l)))%Z.
Proof.
  intros Hk.
  set (t := quantile_1d l (knn_level (length l) k)).
  set (p := fun x => negb (Qlt_bool x t)).
  rewrite <- (length_filter_perm p _ _ (np_sort_perm l)).
  set (m := Z.to_nat (Z.of_nat (length l) - k - 1)).
  rewrite <- (firstn_skipn m (np_sort l)), filter_app, length_app.
  assert (Hall : filter p (skipn m (np_sort l)) = skipn m (np_sort l)).
  { apply forallb_filter_id. apply forallb_forall. intros x Hx.
    subst p. simpl. apply negb_true_iff.
    destruct (Qlt_bool x t) eqn:E; [exfalso | reflexivity].
    apply Qlt_bool_iff in E.
    pose proof (sorted_skipn_lower _ m x (np_sort_sorted l) Hx) as H1.
    pose proof (quantile_le_rank l k Hk) as H2. fold t in H2. fold m in H2.
    lra. }
  rewrite Hall, length_skipn, length_np_sort. lia.
Qed.

Lemma Qlt_bool_comp (x y t : Q) : x == y -> Qlt_bool x t = Qlt_bool y t.
Proof.
  intros E.
  destruct (Qlt_bool x t) eqn:A, (Qlt_bool y t) eqn:B; try reflexivity.
  - apply Qlt_bool_iff in A. rewrite E in A. apply Qlt_bool_iff in A. congruence.
  - apply Qlt_bool_iff in B. rewrite <- E in B. apply Qlt_bool_iff in B. congruence.
Qed.

Lemma Qabs_zero (x : Q) : Qabs x == 0 -> x == 0.
Proof. destruct x as [n d]. unfold Qabs, Qeq. simpl. lia. Qed.

(** X9.  A lower bound the interpolated threshold guarantees.  On a
    square matrix equal to its transpose and without zero entries,
    [knn_graph_quantile] (self_loops=True, symmetric=False) leaves at
    least k + 1 nonzero entries in every row. *)
Theorem knn_graph_quantile_min_degree (M : matrix) (k : Z) :
  shape0 M = shape1 M ->
  (forall i j, (i < shape0 M)%nat -> (j < shape0 M)%nat -> M.[i, j] == M.[j, i]) ->
  (forall i j, (i < shape0 M)%nat -> (j < shape0 M)%nat -> ~ M.[i, j] == 0) ->
  (1 <= k <= Z.of_nat (shape0 M) - 1)%Z ->
  exists out, knn_graph_quantile M true k false = Return out /\
    forall i, (i < shape0 M)%nat ->
      (k + 1 <= Z.of_nat (count_nonzero (row 0%Q out i)))%Z.
Proof.
  intros Hsq Hsym Hnz Hk.
  destruct (knn_graph_quantile_returns M true k false Hsq Hk)
    as (adj & _ & H0 & H1 & Hent & ->).
  exists adj. split; [reflexivity |]. intros i Hi.
  set (a := np_abs M).
  set (t := quantile_1d (column 0 a i) (knn_level (shape0 M) k)).
  pose proof (count_not_below_quantile (column 0 a i) k) as Hcount.
  rewrite length_column in Hcount. change (shape0 a) with (shape0 M) in Hcount.
  specialize (Hcount Hk). fold t in Hcount.
  unfold column in Hcount. rewrite length_filter_map in Hcount.
  change (shape0 a) with (shape0 M) in Hcount.
  unfold count_nonzero, row. rewrite length_filter_map, H1.
  rewrite (filter_ext_in _ (fun r => negb (Qlt_bool a.[r, i] t))); [exact Hcount |].
  intros j Hj. apply in_seq in Hj.
  rewrite Hent by lia. unfold quantile_entry. cbv zeta.
  rewrite np_all_equal_transpose by assumption.
  simpl negb. simpl andb. cbv iota. fold a. fold t.
  assert (E : a.[i, j] == a.[j, i]).
  { subst a. rewrite !get_np_abs by lia. rewrite (Hsym i j) by lia. reflexivity. }
  rewrite (Qlt_bool_comp _ _ t E).
  destruct (Qlt_bool a.[j, i] t); [reflexivity |]. simpl.
  apply Qneq_bool_iff. subst a. rewrite get_np_abs by lia.
  intros Z0. apply (Hnz i j); [lia | lia |]. apply Qabs_zero, Z0.
Qed.

(** ** [make_group_graph]: errors and the graph object *)

Section GroupExtras.
Context {AS : ArgSort}.

(** X10.  The failures of [make_group_graph], in the order the code
    meets them: an empty collection raises IndexError at
    [connectomes[0]]; a first connectome that is not square raises
    ValueError('Connectomes must be square.') whatever k is; and for
    connectomes of one square shape a k outside [1, n-1] raises the
    range error of [knn_graph]. *)
Theorem make_group_graph_errors (k : Z) (selfloops symmetric : bool) :
  make_group_graph [] k selfloops symmetric
  = Raise (IndexError "list index out of range"%string) /\
  (forall first rest,
     shape0 first <> shape1 first ->
     make_group_graph (first :: rest) k selfloops symmetric
     = Raise ConnectomeShapeError) /\
  (forall first rest,
     (forall c, In c (first :: rest) ->
        shape0 c = shape0 first /\ shape1 c = shape1 first) ->
     shape0 first = shape1 first ->
     (k <= 0 \/ Z.of_nat (shape0 first) <= k)%Z ->
     make_group_graph (first :: rest) k selfloops symmetric = Raise RangeError).
Proof.
  split; [reflexivity |]. split.
  - intros first rest Hns. unfold make_group_graph.
    apply Nat.eqb_neq in Hns. now rewrite Hns.
  - intros first rest _ Hsq Hk. unfold make_group_graph.
    rewrite <- Hsq, Nat.eqb_refl. simpl negb. cbv iota zeta.
    unfold knn_graph. cbn [mean_axis0 shape0 shape1 tabulate].
    rewrite <- Hsq, Nat.eqb_refl. simpl negb. cbv iota.
    assert (G : ((k <=? 0)%Z || (Z.of_nat (shape0 first) <=? k)%Z) = true).
    { apply orb_true_iff. destruct Hk; [left | right]; now apply Z.leb_le. }
    rewrite G. reflexivity.
Qed.

Lemma make_group_graph_returns (first : matrix) (rest : list matrix)
    (k : Z) (selfloops symmetric : bool) :
  shape0 first = shape1 first ->
  (1 <= k <= Z.of_nat (shape0 first) - 1)%Z ->
  exists out,
    knn_graph (mean_axis0 first (first :: rest)) k selfloops symmetric = Return out /\
    shape0 out = shape0 first /\ shape1 out = shape0 first /\
    make_group_graph (first :: rest) k selfloops symmetric
    = Return (from_networkx (from_numpy_array out)).
Proof.
  intros Hsq Hk.
  set (avg := mean_axis0 first (first :: rest)).
  assert (A0 : shape0 avg = shape0 first) by reflexivity.
  assert (A1 : shape1 avg = shape0 first) by (simpl; congruence).
  destruct (knn_graph_returns avg k selfloops symmetric) as
    (adj & _ & H0 & H1 & _ & Hknn); [congruence | rewrite A0; exact Hk |].
  assert (Hout : exists out, knn_graph avg k selfloops symmetric = Return out /\
            shape0 out = shape0 first /\ shape1 out = shape0 first).
  { rewrite Hknn. destruct symmetric.
    - destruct (make_undirected_returns adj) as (S & HS & _ & S0 & S1 & _);
        [congruence |].
      exists S. split; [exact HS |]. split; congruence.
    - exists adj. split; [reflexivity |]. split; congruence. }
  destruct Hout as (out & Hret & O0 & O1).
  exists out. split; [exact Hret |]. split; [exact O0 |]. split; [exact O1 |].
  unfold make_group_graph.
  rewrite <- Hsq, Nat.eqb_refl. simpl negb. cbv iota zeta.
  fold avg. rewrite Hret. reflexivity.
Qed.
End GroupExtras.

(** *** Membership in the adjacency lists *)

(** [v] is a neighbour of [u] in the graph. *)
Definition has_edge (g : Graph) (u v : nat) : Prop :=
  In v (map fst (nth u g [])).

Lemma assoc_set_keys v w l x :
  In x (map fst (assoc_set v w l)) <-> x = v \/ In x (map fst l).
Proof.
  induction l as [| [v' w'] t IH]; simpl.
  - intuition congruence.
  - destruct (Nat.eqb_spec v' v) as [-> | Hne]; simpl.
    + intuition congruence.
    + rewrite IH. intuition congruence.
Qed.

Lemma assoc_set_NoDup v w l :
  NoDup (map fst l) -> NoDup (map fst (assoc_set v w l)).
Proof.
  induction l as [| [v' w'] t IH]; simpl; intros H.
  - repeat constructor. intros [].
  - inversion H as [| ? ? Hn Ht]; subst.
    destruct (Nat.eqb_spec v' v) as [-> | Hne]; simpl.
    + constructor; assumption.
    + constructor; [| apply IH, Ht].
      rewrite assoc_set_keys. intros [E | E]; [congruence | contradiction].
Qed.

Lemma length_update_nth {A : Type} (u : nat) (f : A -> A) (l : list A) :
  length (update_nth u f l) = length l.
Proof.
  revert u. induction l as [| x l IH]; intros [| u]; simpl; try reflexivity.
  now rewrite IH.
Qed.

Lemma nth_update_nth {A : Type} (u : nat) (f : A -> A) (l : list A) (u' : nat) (d : A) :
  (u < length l)%nat ->
  nth u' (update_nth u f l) d = if (u' =? u)%nat then f (nth u' l d) else nth u' l d.
Proof.
  revert u u'. induction l as [| x l IH]; intros u u' Hu; simpl in Hu; [lia |].
  destruct u as [| u], u' as [| u']; simpl; try reflexivity.
  apply IH. lia.
Qed.

Lemma has_edge_add_edge (g : Graph) (a b : nat) (w : Q) (u x : nat) :
  (a < length g)%nat -> (b < length g)%nat ->
  has_edge (add_edge g a b w) u x <->
  has_edge g u x \/ (u = a /\ x = b) \/ (u = b /\ x = a).
Proof.
  intros Ha Hb. unfold has_edge, add_edge.
  rewrite nth_update_nth by (rewrite length_update_nth; exact Hb).
  rewrite nth_update_nth by exact Ha.
  destruct (Nat.eqb_spec u b) as [Eb | Hub]; destruct (Nat.eqb_spec u a) as [Ea | Hua];
    rewrite ?assoc_set_keys; intuition congruence.
Qed.

Lemma Forall_update_nth {A : Type} (P : A -> Prop) (u : nat) (f : A -> A) (l : list A) :
  (forall x, P x -> P (f x)) -> Forall P l -> Forall P (update_nth u f l).
Proof.
  intros Hf H. revert u. induction H as [| x l Hx Hl IH]; intros [| u]; simpl;
    constructor; auto.
Qed.

(** The adjacency lists after a run of [add_edge]. *)
Lemma fold_add_edges (W : nat * nat -> Q) (E : list (nat * nat)) : forall g : Graph,
  (forall p, In p E -> (fst p < length g)%nat /\ (snd p < length g)%nat) ->
  let g' := fold_left (fun g p => add_edge g (fst p) (snd p) (W p)) E g in
  length g' = length g /\
  (forall u x, has_edge g' u x <->
     has_edge g u x \/
     exists p, In p E /\ ((u = fst p /\ x = snd p) \/ (u = snd p /\ x = fst p))) /\
  (Forall (fun nb => NoDup (map fst nb)) g ->
   Forall (fun nb => NoDup (map fst nb)) g').
Proof.
  induction E as [| p E IH]; intros g Hr; simpl.
  - split; [reflexivity |]. split; [| tauto].
    intros u x. split; [tauto | intros [H | (p & [] & _)]; exact H].
  - destruct (Hr p (or_introl eq_refl)) as [Ha Hb].
    destruct (IH (add_edge g (fst p) (snd p) (W p))) as (L & Hmem & Hnd).
    { intros q Hq. unfold add_edge. rewrite !length_update_nth.
      apply Hr. now right. }
    split; [| split].
    + rewrite L. unfold add_edge. now rewrite !length_update_nth.
    + intros u x. rewrite Hmem, has_edge_add_edge by assumption. split.
      * intros [[H | H] | (q & Hq & H)].
        -- now left.
        -- right. exists p. split; [now left | exact H].
        -- right. exists q. split; [now right | exact H].
      * intros [H | (q & [<- | Hq] & H)].
        -- left. now left.
        -- left. now right.
        -- right. exists q. split; assumption.
    + intros H. apply Hnd. unfold add_edge.
      apply Forall_update_nth; [intros nb; apply assoc_set_NoDup |].
      apply Forall_update_nth; [intros nb; apply assoc_set_NoDup | exact H].
Qed.

Lemma in_nonzero (a : matrix) (u v : nat) :
  In (u, v) (nonzero a) <->
  (u < shape0 a)%nat /\ (v < shape1 a)%nat /\ ~ a.[u, v] == 0.
Proof.
  unfold nonzero. rewrite filter_In, in_prod_iff, !in_seq. simpl fst. simpl snd.
  rewrite Qneq_bool_iff. intuition lia.
Qed.

Lemma nth_repeat_nil {A : Type} (n u : nat) : nth u (repeat (@nil A) n) [] = [].
Proof. revert u. induction n as [| n IH]; intros [| u]; simpl; auto. Qed.

Lemma edge_index_flat (g : Graph) :
  edge_index (from_networkx g)
  = flat_map (fun u => map (pair u) (map fst (nth u g []))) (seq 0 (length g)).
Proof.
  unfold from_networkx, directed_edges. cbn [edge_index].
  induction (seq 0 (length g)) as [| u L IH]; simpl; [reflexivity |].
  rewrite map_app, IH, !map_map. reflexivity.
Qed.

Lemma in_edge_index (g : Graph) (u v : nat) :
  In (u, v) (edge_index (from_networkx g)) <-> (u < length g)%nat /\ has_edge g u v.
Proof.
  rewrite edge_index_flat, in_flat_map. unfold has_edge. split.
  - intros (u' & Hu' & H). apply in_map_iff in H. destruct H as (x & E & Hx).
    inversion E; subst. apply in_seq in Hu'. split; [lia | exact Hx].
  - intros [Hu H]. exists u. split; [apply in_seq; lia |].
    apply in_map_iff. exists v. split; [reflexivity | exact H].
Qed.

Lemma NoDup_map_pair (u : nat) (L : list nat) : NoDup L -> NoDup (map (pair u) L).
Proof.
  induction 1 as [| x L Hx HL IH]; simpl; constructor; [| exact IH].
  rewrite in_map_iff. intros (y & E & Hy). inversion E; subst. contradiction.
Qed.

Lemma NoDup_flat_map_pair (f : nat -> list nat) (L : list nat) :
  NoDup L -> (forall u, In u L -> NoDup (f u)) ->
  NoDup (flat_map (fun u => map (pair u) (f u)) L).
Proof.
  induction 1 as [| u L Hu HL IH]; intros Hf; simpl; [constructor |].
  apply NoDup_app.
  - apply NoDup_map_pair, Hf. now left.
  - apply IH. intros u' H. apply Hf. now right.
  - intros [a b] Ha Hb. apply in_map_iff in Ha. destruct Ha as (x & E & _).
    inversion E; subst. apply in_flat_map in Hb. destruct Hb as (u' & Hu' & H).
    apply in_map_iff in H. destruct H as (y & E' & _). inversion E'; subst.
    contradiction.
Qed.

(** The graph object of any square matrix. *)
Lemma graph_of_matrix (a : matrix) :
  shape0 a = shape1 a ->
  let data := from_networkx (from_numpy_array a) in
  num_nodes data = shape0 a /\
  length (weight data) = length (edge_index data) /\
  NoDup (edge_index data) /\
  forall u v, In (u, v) (edge_index data) <->
    (u < shape0 a)%nat /\ (v < shape0 a)%nat /\
    (~ a.[u, v] == 0 \/ ~ a.[v, u] == 0).
Proof.
  intros Hsq. cbv zeta.
  destruct (fold_add_edges (fun p => a.[fst p, snd p]) (nonzero a)
              (repeat [] (shape0 a))) as (L & Hmem & Hnd).
  { intros [u v] Hp. apply in_nonzero in Hp. rewrite repeat_length. simpl. lia. }
  cbv zeta in L, Hmem, Hnd. fold (from_numpy_array a) in L, Hmem, Hnd.
  rewrite repeat_length in L.
  split; [exact L |]. split; [| split].
  - unfold from_networkx. cbn [weight edge_index]. now rewrite !length_map.
  - rewrite edge_index_flat. apply NoDup_flat_map_pair; [apply seq_NoDup |].
    intros u _.
    assert (H : Forall (fun nb => NoDup (map fst nb)) (from_numpy_array a)).
    { apply Hnd. apply Forall_forall. intros nb Hnb.
      apply repeat_spec in Hnb. subst. constructor. }
    destruct (Nat.lt_ge_cases u (length (from_numpy_array a))) as [Hu | Hu].
    + rewrite Forall_forall in H. apply H, nth_In, Hu.
    + rewrite nth_overflow by exact Hu. constructor.
  - intros u v. rewrite in_edge_index, Hmem, L.
    unfold has_edge at 1. rewrite nth_repeat_nil. simpl. split.
    + intros (Hu & [[] | ((p1, p2) & Hp & H)]).
      apply in_nonzero in Hp. simpl in H.
      destruct H as [[-> ->] | [-> ->]]; (split; [lia |]); (split; [lia |]); tauto.
    + intros (Hu & Hv & [H | H]).
      * split; [exact Hu |]. right. exists (u, v). split; [| now left].
        apply in_nonzero. repeat split; try lia. exact H.
      * split; [exact Hu |]. right. exists (v, u). split; [| now right].
        apply in_nonzero. repeat split; try lia. exact H.
Qed.

Section GroupGraphObject.
Context {AS : ArgSort}.

(** X11.  The graph object is undirected whatever the flags: the edge
    index of the result of [make_group_graph] holds the pair (u, v)
    exactly when the kNN matrix of the mean connectome is nonzero at
    (u, v) or at (v, u); so it holds (v, u) whenever it holds (u, v). *)
Theorem make_group_graph_edges_undirected (first : matrix) (rest : list matrix)
    (k : Z) (selfloops symmetric : bool) :
  (forall c, In c (first :: rest) ->
     shape0 c = shape0 first /\ shape1 c = shape1 first) ->
  shape0 first = shape1 first ->
  (1 <= k <= Z.of_nat (shape0 first) - 1)%Z ->
  exists avg_conn_k data,
    knn_graph (mean_axis0 first (first :: rest)) k selfloops symmetric
    = Return avg_conn_k /\
    make_group_graph (first :: rest) k selfloops symmetric = Return data /\
    (forall u v, In (u, v) (edge_index data) <->
       (u < shape0 first)%nat /\ (v < shape0 first)%nat /\
       (~ avg_conn_k.[u, v] == 0 \/ ~ avg_conn_k.[v, u] == 0)) /\
    (forall u v, In (u, v) (edge_index data) -> In (v, u) (edge_index data)).
Proof.
  intros _ Hsq Hk.
  destruct (make_group_graph_returns first rest k selfloops symmetric Hsq Hk)
    as (out & Hret & O0 & O1 & Hg).
  destruct (graph_of_matrix out) as (_ & _ & _ & Hmem); [congruence |].
  rewrite O0 in Hmem.
  exists out, (from_networkx (from_numpy_array out)).
  split; [exact Hret |]. split; [exact Hg |]. split; [exact Hmem |].
  intros u v H. apply Hmem in H. apply Hmem. tauto.
Qed.

(** X12.  The graph object is well formed: it has one node per region,
    as many weights as edges, no pair twice in the edge index, and both
    ends of every edge among the nodes. *)
Theorem make_group_graph_well_formed (first : matrix) (rest : list matrix)
    (k : Z) (selfloops symmetric : bool) :
  (forall c, In c (first :: rest) ->
     shape0 c = shape0 first /\ shape1 c = shape1 first) ->
  shape0 first = shape1 first ->
  (1 <= k <= Z.of_nat (shape0 first) - 1)%Z ->
  exists data,
    make_group_graph (first :: rest) k selfloops symmetric = Return data /\
    num_nodes data = shape0 first /\
    length (weight data) = length (edge_index data) /\
    NoDup (edge_index data) /\
    forall u v, In (u, v) (edge_index data) ->
      (u < num_nodes data)%nat /\ (v < num_nodes data)%nat.
Proof.
  intros _ Hsq Hk.
  destruct (make_group_graph_returns first rest k selfloops symmetric Hsq Hk)
    as (out & Hret & O0 & O1 & Hg).
  destruct (graph_of_matrix out) as (Hn & Hl & Hnd & Hmem); [congruence |].
  exists (from_networkx (from_numpy_array out)).
  split; [exact Hg |]. split; [congruence |]. split; [exact Hl |].
  split; [exact Hnd |].
  intros u v H. apply Hmem in H. rewrite Hn. tauto.
Qed.
End GroupGraphObject.

(** ** The two builders against each other *)

Lemma length_filter_le {A : Type} (p q : A -> bool) (l : list A) :
  (forall x, In x l -> p x = true -> q x = true) ->
  (length (filter p l) <= length (filter q l))%nat.
Proof.
  induction l as [| x l IH]; intros H; simpl; [lia |].
  assert (IH' := IH (fun y Hy => H y (or_intror Hy))).
  destruct (p x) eqn:P.
  - rewrite (H x (or_introl eq_refl) P). simpl. lia.
  - destruct (q x); simpl; lia.
Qed.

Section Rank.
Context {AS : ArgSort}.

(** A row kept by [knn_graph] in column [i] has a magnitude of rank at
    least [n - k - 1] among the sorted magnitudes of the column. *)
Lemma kept_value_ge_rank (a : matrix) (k : Z) (i r : nat) :
  (1 <= k <= Z.of_nat (shape0 a) - 1)%Z ->
  In r (kept_rows a k i) ->
  nth (Z.to_nat (Z.of_nat (shape0 a) - k - 1)) (np_sort (column 0 a i)) 0 <= a.[r, i].
Proof.
  intros Hk Hr.
  set (l := column 0 a i). set (m := Z.to_nat (Z.of_nat (shape0 a) - k - 1)).
  destruct (Qlt_le_dec a.[r, i] (nth m (np_sort l) 0)) as [Hlt | Hle];
    [exfalso | exact Hle].
  set (p := fun x : Q => Qlt_bool a.[r, i] x).
  (* the k + 1 largest sorted values are above a[r, i] ... *)
  assert (Hmany : (Z.to_nat (k + 1) <= length (filter p l))%nat).
  { rewrite <- (length_filter_perm p _ _ (np_sort_perm l)).
    rewrite <- (firstn_skipn m (np_sort l)), filter_app, length_app.
    assert (Hall : filter p (skipn m (np_sort l)) = skipn m (np_sort l)).
    { apply forallb_filter_id, forallb_forall. intros x Hx.
      apply Qlt_bool_iff.
      eapply Qlt_le_trans; [exact Hlt |].
      apply sorted_skipn_lower; [apply np_sort_sorted | exact Hx]. }
    rewrite Hall, length_skipn, length_np_sort. subst l m.
    rewrite length_column. lia. }
  (* ... but only kept rows other than r can be above it *)
  assert (Hfew : (S (length (filter p l)) <= Z.to_nat (k + 1))%nat).
  { rewrite <- (length_kept_rows a k i) by lia.
    rewrite <- (length_filter_members_but (kept_rows a k i) (shape0 a) r
                  (kept_rows_NoDup a k i)
                  (fun x Hx => kept_rows_bound a k i x Hx) Hr).
    apply le_n_S. subst l. unfold column. rewrite length_filter_map.
    apply length_filter_le. intros r' Hr' Hp. apply in_seq in Hr'.
    subst p. simpl in Hp. apply Qlt_bool_iff in Hp.
    apply andb_true_iff. split.
    - apply negb_true_iff, Nat.eqb_neq. intros ->.
      apply (Qlt_irrefl _ Hp).
    - destruct (existsb (Nat.eqb r') (kept_rows a k i)) eqn:E; [reflexivity |].
      exfalso. apply (Qlt_not_le _ _ Hp).
      apply (kept_rows_largest a k i r r' Hr); [lia |].
      intros H. apply existsb_eqb_In in H. congruence. }
  lia.
Qed.

(** X13.  On a square matrix equal to its transpose, every edge that
    [knn_graph] keeps is kept by [knn_graph_quantile] too, at the
    transposed place and with the absolute value of the weight (both with
    self-loops and symmetric=False): the quantile builder never drops a
    true top-k neighbour. *)
Theorem quantile_keeps_degree_rank_edges (M : matrix) (k : Z) :
  shape0 M = shape1 M ->
  (forall i j, (i < shape0 M)%nat -> (j < shape0 M)%nat -> M.[i, j] == M.[j, i]) ->
  (1 <= k <= Z.of_nat (shape0 M) - 1)%Z ->
  exists knn_out quantile_out,
    knn_graph M k true false = Return knn_out /\
    knn_graph_quantile M true k false = Return quantile_out /\
    forall r i, (r < shape0 M)%nat -> (i < shape0 M)%nat ->
      ~ knn_out.[r, i] == 0 ->
      quantile_out.[i, r] = Qabs M.[i, r] /\ ~ quantile_out.[i, r] == 0.
Proof.
  intros Hsq Hsym Hk.
  destruct (knn_graph_returns M k true false Hsq Hk)
    as (adj & _ & _ & _ & Hent & ->).
  destruct (knn_graph_quantile_returns M true k false Hsq Hk)
    as (qadj & _ & _ & _ & Hqent & ->).
  exists adj, qadj. split; [reflexivity |]. split; [reflexivity |].
  intros r i Hr Hi Hnz.
  rewrite Hent in Hnz by assumption. unfold knn_entry in Hnz.
  simpl negb in Hnz. simpl andb in Hnz. cbv iota in Hnz.
  rewrite get_knn_mask in Hnz by assumption.
  destruct (existsb (Nat.eqb r) (kept_rows (np_abs M) k i)) eqn:E;
    [| exfalso; apply Hnz; reflexivity].
  apply existsb_eqb_In in E.
  assert (Hrank := kept_value_ge_rank (np_abs M) k i r Hk E).
  assert (Hq := quantile_le_rank (column 0 (np_abs M) i) k).
  rewrite length_column in Hq. specialize (Hq Hk).
  change (shape0 (np_abs M)) with (shape0 M) in Hq, Hrank.
  rewrite get_np_abs in Hrank by congruence.
  assert (Habs : Qabs M.[i, r] == Qabs M.[r, i])
    by (rewrite (Hsym i r) by assumption; reflexivity).
  rewrite Hqent by assumption. unfold quantile_entry. cbv zeta.
  rewrite np_all_equal_transpose by assumption.
  simpl negb. simpl andb. cbv iota. rewrite get_np_abs by congruence.
  destruct (Qlt_bool (Qabs M.[i, r]) _) eqn:B.
  - exfalso. apply Qlt_bool_iff in B. rewrite Habs in B.
    apply (Qlt_not_le _ _ B). eapply Qle_trans; eassumption.
  - split; [reflexivity |]. intros Z0. apply Hnz.
    rewrite Habs in Z0. apply Qabs_zero, Z0.
Qed.
End Rank.

(** ** Signs *)

(** [-mat]. *)
Definition np_negative (a : matrix) : matrix := map1 0 Qopp a.

Lemma Qabs_opp_eq (x : Q) : Qabs (- x) = Qabs x.
Proof. destruct x as [n d]. unfold Qabs, Qopp. simpl. now rewrite Z.abs_opp. Qed.

Section Signs.
Context {AS : ArgSort}.

(** X14.  The selection of [knn_graph] looks at magnitudes only:
    negating the input negates the returned matrix (symmetric=False),
    entry by entry, so the same edges survive. *)
Theorem knn_graph_negated_input (M : matrix) (k : Z) (selfloops : bool) :
  shape0 M = shape1 M ->
  (1 <= k <= Z.of_nat (shape0 M) - 1)%Z ->
  exists out out',
    knn_graph M k selfloops false = Return out /\
    knn_graph (np_negative M) k selfloops false = Return out' /\
    forall i j, (i < shape0 M)%nat -> (j < shape0 M)%nat ->
      out'.[i, j] = - out.[i, j].
Proof.
  intros Hsq Hk.
  destruct (knn_graph_returns M k selfloops false Hsq Hk)
    as (adj & _ & _ & _ & Hent & ->).
  destruct (knn_graph_returns (np_negative M) k selfloops false)
    as (adj' & _ & _ & _ & Hent' & ->); [simpl; exact Hsq | exact Hk |].
  exists adj, adj'. split; [reflexivity |]. split; [reflexivity |].
  intros i j Hi Hj. change (shape0 (np_negative M)) with (shape0 M) in Hent'.
  rewrite Hent, Hent' by assumption. unfold knn_entry.
  change (shape0 (np_negative M)) with (shape0 M).
  rewrite !get_knn_mask by assumption.
  assert (Hcol : column 0 (np_abs (np_negative M)) j = column 0 (np_abs M) j).
  { unfold column. change (shape0 (np_abs (np_negative M))) with (shape0 M).
    change (shape0 (np_abs M)) with (shape0 M).
    apply map_ext_in. intros r Hr. apply in_seq in Hr.
    rewrite !get_np_abs by (simpl; lia).
    unfold np_negative, map1. rewrite get_tabulate by lia. apply Qabs_opp_eq. }
  unfold kept_rows. rewrite Hcol.
  assert (Hneg : (np_negative M).[i, j] = - M.[i, j]).
  { unfold np_negative, map1. now rewrite get_tabulate by lia. }
  rewrite Hneg.
  destruct (negb selfloops && (i =? j)%nat); [reflexivity |].
  destruct (existsb _ _); reflexivity.
Qed.
End Signs.

(** ** The further properties at concrete inputs *)

(** A 3 x 3 correlation-like matrix: symmetric, unit diagonal, no zero. *)
Definition correlation3 : matrix :=
  Array.mk 3 3 [[1; 1 # 2; -1 # 4]; [1 # 2; 1; 1 # 3]; [-1 # 4; 1 # 3; 1]].

Lemma builders_symmetric_flag_witness :
  (exists adj out,
     knn_graph signed3 1 false false = Return adj /\
     knn_graph signed3 1 false true = Return out /\
     make_undirected adj = Return out /\ transpose 0 out = out) /\
  (exists adj out,
     knn_graph_quantile signed3 false 1 false = Return adj /\
     knn_graph_quantile signed3 false 1 true = Return out /\
     make_undirected adj = Return out /\ transpose 0 out = out).
Proof.
  apply (builders_symmetric_flag (AS := StableArgSort) signed3 1 false).
  - reflexivity.
  - simpl; lia.
Defined.

Lemma knn_graph_one_sided_edge_halved_witness :
  exists adj out,
    knn_graph signed3 1 false false = Return adj /\
    knn_graph signed3 1 false true = Return out /\
    adj.[0, 1] == 0 /\
    out.[1, 0] == adj.[1, 0] / 2 /\ out.[0, 1] == adj.[1, 0] / 2.
Proof.
  destruct (knn_graph_one_sided_edge_halved (AS := StableArgSort) signed3 1 false)
    as (adj & out & Hf & Ht & H).
  - reflexivity.
  - simpl; lia.
  - exists adj, out. split; [exact Hf |]. split; [exact Ht |].
    vm_compute in Hf. injection Hf as <-.
    split; [reflexivity |].
    apply (H ltac:(vm_compute; intros E; discriminate E) 1%nat 0%nat);
      [simpl; lia | simpl; lia | reflexivity].
Defined.

Lemma make_undirected_fixes_symmetric_witness :
  exists S, make_undirected correlation3 = Return S /\
    forall i j, (i < 3)%nat -> (j < 3)%nat -> S.[i, j] == correlation3.[i, j].
Proof.
  apply (make_undirected_fixes_symmetric correlation3).
  - reflexivity.
  - intros i j Hi Hj. index_cases i; index_cases j; reflexivity.
  - left. vm_compute. intros E. discriminate E.
Defined.

Lemma make_undirected_unweighted_witness :
  exists S, make_undirected binary4 = Return S /\
    forall i j, (i < 4)%nat -> (j < 4)%nat ->
      (S.[i, j] == 0 \/ S.[i, j] == 1) /\
      (S.[i, j] == 1 <-> binary4.[i, j] == 1 \/ binary4.[j, i] == 1).
Proof.
  apply (make_undirected_unweighted binary4).
  - reflexivity.
  - intros i j Hi Hj. index_cases i; index_cases j;
      first [left; reflexivity | right; reflexivity].
Defined.

Lemma knn_graph_keeps_strongest_witness :
  exists out, knn_graph signed3 1 true false = Return out /\
    forall j r r', (j < 3)%nat -> (r < 3)%nat -> (r' < 3)%nat ->
      (true = false -> r' <> j) ->
      ~ out.[r, j] == 0 -> out.[r', j] == 0 ->
      Qabs signed3.[r', j] <= Qabs signed3.[r, j].
Proof.
  apply (knn_graph_keeps_strongest (AS := StableArgSort) signed3 1 true).
  - reflexivity.
  - simpl; lia.
Defined.

Lemma knn_graph_largest_k_witness :
  exists out, knn_graph signed3 2 false false = Return out /\
    forall i j, (i < 3)%nat -> (j < 3)%nat ->
      out.[i, j] = if negb false && (i =? j)%nat then 0 else signed3.[i, j].
Proof.
  apply (knn_graph_largest_k (AS := StableArgSort) signed3 false).
  - reflexivity.
  - simpl; lia.
Defined.

Lemma knn_graph_dominant_diagonal_witness :
  exists out, knn_graph correlation3 1 false false = Return out /\
    forall j, (j < 3)%nat ->
      Z.of_nat (count_nonzero (column 0 out j)) = 1%Z /\ out.[j, j] = 0.
Proof.
  apply (knn_graph_dominant_diagonal (AS := StableArgSort) correlation3 1).
  - reflexivity.
  - intros i j Hi Hj. index_cases i; index_cases j; intros E; q_absurd E.
  - intros i j Hi Hj Hij. index_cases i; index_cases j;
      first [exfalso; apply Hij; reflexivity | reflexivity].
  - simpl; lia.
Defined.

Lemma knn_graph_quantile_directed_mask_witness :
  exists out, knn_graph_quantile signed3 true 1 false = Return out /\
    forall i j, (i < 3)%nat -> (j < 3)%nat ->
      let below :=
        Qabs signed3.[i, j] < quantile_1d (column 0 (np_abs signed3) i) (knn_level 3 1) /\
        Qabs signed3.[i, j] < quantile_1d (row 0 (np_abs signed3) j) (knn_level 3 1) in
      (below -> out.[i, j] = 0) /\ (~ below -> out.[i, j] = Qabs signed3.[i, j]).
Proof.
  apply (knn_graph_quantile_directed_mask signed3 1 0 1).
  - reflexivity.
  - simpl; lia.
  - simpl; lia.
  - intros E. q_absurd E.
  - simpl; lia.
Defined.

Lemma knn_graph_quantile_min_degree_witness :
  exists out, knn_graph_quantile correlation3 true 1 false = Return out /\
    forall i, (i < 3)%nat -> (2 <= Z.of_nat (count_nonzero (row 0%Q out i)))%Z.
Proof.
  apply (knn_graph_quantile_min_degree correlation3 1).
  - reflexivity.
  - intros i j Hi Hj. index_cases i; index_cases j; reflexivity.
  - intros i j Hi Hj. index_cases i; index_cases j; intros E; q_absurd E.
  - simpl; lia.
Defined.

Lemma make_group_graph_errors_witness :
  make_group_graph [] 1 false true
  = Raise (IndexError "list index out of range"%string) /\
  make_group_graph [wide34; dense5] 0 false true = Raise ConnectomeShapeError /\
  make_group_graph [dense5; dense5] 5 false true = Raise RangeError.
Proof.
  destruct (make_group_graph_errors (AS := StableArgSort) 1 false true) as (H1 & _ & _).
  destruct (make_group_graph_errors (AS := StableArgSort) 0 false true) as (_ & H2 & _).
  destruct (make_group_graph_errors (AS := StableArgSort) 5 false true) as (_ & _ & H3).
  split; [exact H1 |]. split.
  - apply H2. simpl; lia.
  - apply H3.
    + intros c [<- | [<- | []]]; split; reflexivity.
    + reflexivity.
    + right. simpl; lia.
Defined.

Lemma make_group_graph_edges_undirected_witness :
  exists avg_conn_k data,
    knn_graph (mean_axis0 signed3 [signed3; signed3]) 1 false false
    = Return avg_conn_k /\
    make_group_graph [signed3; signed3] 1 false false = Return data /\
    (forall u v, In (u, v) (edge_index data) <->
       (u < 3)%nat /\ (v < 3)%nat /\
       (~ avg_conn_k.[u, v] == 0 \/ ~ avg_conn_k.[v, u] == 0)) /\
    (forall u v, In (u, v) (edge_index data) -> In (v, u) (edge_index data)).
Proof.
  apply (make_group_graph_edges_undirected (AS := StableArgSort)
           signed3 [signed3] 1 false false).
  - intros c [<- | [<- | []]]; split; reflexivity.
  - reflexivity.
  - simpl; lia.
Defined.

Lemma make_group_graph_well_formed_witness :
  exists data,
    make_group_graph [signed3; signed3] 1 true false = Return data /\
    num_nodes data = 3%nat /\
    length (weight data) = length (edge_index data) /\
    NoDup (edge_index data) /\
    forall u v, In (u, v) (edge_index data) ->
      (u < num_nodes data)%nat /\ (v < num_nodes data)%nat.
Proof.
  apply (make_group_graph_well_formed (AS := StableArgSort)
           signed3 [signed3] 1 true false).
  - intros c [<- | [<- | []]]; split; reflexivity.
  - reflexivity.
  - simpl; lia.
Defined.

Lemma quantile_keeps_degree_rank_edges_witness :
  exists knn_out quantile_out,
    knn_graph correlation3 1 true false = Return knn_out /\
    knn_graph_quantile correlation3 true 1 false = Return quantile_out /\
    forall r i, (r < 3)%nat -> (i < 3)%nat ->
      ~ knn_out.[r, i] == 0 ->
      quantile_out.[i, r] = Qabs correlation3.[i, r] /\ ~ quantile_out.[i, r] == 0.
Proof.
  apply (quantile_keeps_degree_rank_edges (AS := StableArgSort) correlation3 1).
  - reflexivity.
  - intros i j Hi Hj. index_cases i; index_cases j; reflexivity.
  - simpl; lia.
Defined.

Lemma knn_graph_negated_input_witness :
  exists out out',
    knn_graph signed3 1 false false = Return out /\
    knn_graph (np_negative signed3) 1 false false = Return out' /\
    forall i j, (i < 3)%nat -> (j < 3)%nat -> out'.[i, j] = - out.[i, j].
Proof.
  apply (knn_graph_negated_input (AS := StableArgSort) signed3 1 false).
  - reflexivity.
  - simpl; lia.
Defined.
